(** * Personal expenses page: a shallow embedding of [src/app/page.tsx]

    The page keeps an ordered collection of [Expense] records in React
    state, mirrors it to [localStorage] as JSON and derives a month
    filter, totals and a month list from it.  The embedding has two layers:

    - the ECMAScript library functions the page calls ([String.prototype.trim],
      [parseFloat], [Math.round], [Array.prototype.sort], [Map], [Set],
      [JSON.stringify], [JSON.parse], [Date]) are modelled from the language
      standard;
    - the functions of the page itself ([monthKey], [addExpense],
      [removeExpense], [filtered], [totals], [monthsAvailable], the effects
      that load and save) are translated from the source, keeping its names.

    Modelling conventions.
    - A JS string is a sequence of UTF-16 code units: [list Z], each unit in
      [0, 65536).
    - A JS number is [NaN], an infinity, or a finite value.  Finite values are
      exact decimals [m / 10^s]; arithmetic on them is exact (no binary
      rounding, no overflow, no negative zero).
    - [crypto.randomUUID()] and [new Date()] read the environment: the values
      they return are explicit arguments. *)

From Stdlib Require Import ZArith List Bool Lia Arith String Ascii.
From Stdlib Require Import Sorting.Sorted Permutation.
Set Warnings "-register-all".
Import ListNotations.
Local Open Scope list_scope.
Local Open Scope Z_scope.

(* ================================================================= *)
(** * Strings *)

Definition jsstring := list Z.

(** Code units of an ASCII literal. *)
Definition lit (s : String.string) : jsstring :=
  map (fun a => Z.of_N (N_of_ascii a)) (list_ascii_of_string s).

Definition wf_char (c : Z) : Prop := 0 <= c < 65536.
Definition wf_string (s : jsstring) : Prop := Forall wf_char s.

Fixpoint str_eqb (a b : jsstring) : bool :=
  match a, b with
  | [], [] => true
  | x :: a', y :: b' => (x =? y) && str_eqb a' b'
  | _, _ => false
  end.

(** [a < b] on strings: comparison of code units, a proper prefix is smaller. *)
Fixpoint str_ltb (a b : jsstring) : bool :=
  match a, b with
  | _, [] => false
  | [], _ :: _ => true
  | x :: a', y :: b' => (x <? y) || ((x =? y) && str_ltb a' b')
  end.

(** ECMAScript [WhiteSpace] and [LineTerminator] code units, the ones that
    [trim] strips and [parseFloat] skips. *)
Definition is_space (c : Z) : bool :=
  ((9 <=? c) && (c <=? 13)) || (c =? 32) || (c =? 160) || (c =? 5760)
  || ((8192 <=? c) && (c <=? 8202)) || (c =? 8232) || (c =? 8233)
  || (c =? 8239) || (c =? 8287) || (c =? 12288) || (c =? 65279).

Fixpoint trimStart (s : jsstring) : jsstring :=
  match s with
  | c :: s' => if is_space c then trimStart s' else s
  | [] => []
  end.

Definition trimEnd (s : jsstring) : jsstring := rev (trimStart (rev s)).

(** [String.prototype.trim]. *)
Definition trim (s : jsstring) : jsstring := trimEnd (trimStart s).

(* ================================================================= *)
(** * Numbers *)

Inductive number : Type :=
| NaN
| Infinity (negative : bool)
| Fin (m : Z) (s : nat).          (* the decimal m / 10^s *)

(** Finite values are kept in lowest terms: no trailing zero after the
    decimal point. *)
Fixpoint norm (m : Z) (s : nat) : number :=
  match s with
  | O => Fin m 0
  | S s' => if m mod 10 =? 0 then norm (m / 10) s' else Fin m s
  end.

Definition canon (x : number) : Prop :=
  match x with
  | Fin m s => s = O \/ m mod 10 <> 0
  | _ => True
  end.

Definition pow10 (n : nat) : Z := 10 ^ Z.of_nat n.

(** Two finite numbers have the same value: [m1 / 10^s1 = m2 / 10^s2]. *)
Definition same_value (m1 : Z) (s1 : nat) (m2 : Z) (s2 : nat) : Prop :=
  m1 * pow10 s2 = m2 * pow10 s1.

Definition zero : number := Fin 0 0.

Definition isNaN (x : number) : bool :=
  match x with NaN => true | _ => false end.

Definition isFinite (x : number) : bool :=
  match x with Fin _ _ => true | _ => false end.

Definition neg (x : number) : number :=
  match x with
  | NaN => NaN
  | Infinity b => Infinity (negb b)
  | Fin m s => Fin (- m) s
  end.

(** [x + y]. *)
Definition add (x y : number) : number :=
  match x, y with
  | NaN, _ | _, NaN => NaN
  | Infinity a, Infinity b => if Bool.eqb a b then Infinity a else NaN
  | Infinity a, Fin _ _ => Infinity a
  | Fin _ _, Infinity b => Infinity b
  | Fin m1 s1, Fin m2 s2 =>
      let s := Nat.max s1 s2 in
      norm (m1 * pow10 (s - s1) + m2 * pow10 (s - s2)) s
  end.

(** [x - y]. *)
Definition sub (x y : number) : number := add x (neg y).

(** [x * y]. *)
Definition mul (x y : number) : number :=
  match x, y with
  | NaN, _ | _, NaN => NaN
  | Infinity a, Infinity b => Infinity (xorb a b)
  | Infinity a, Fin m _ =>
      if m =? 0 then NaN else Infinity (xorb a (m <? 0))
  | Fin m _, Infinity b =>
      if m =? 0 then NaN else Infinity (xorb b (m <? 0))
  | Fin m1 s1, Fin m2 s2 => norm (m1 * m2) (s1 + s2)
  end.

(** [x / 10^k] for a positive power of ten, the only division whose result the
    page stores ([/ 100]); it is exact on decimals. *)
Definition div_pow10 (x : number) (k : nat) : number :=
  match x with
  | Fin m s => norm m (s + k)
  | _ => x
  end.

(** [x < y] and [x <= y]; every comparison with [NaN] is false. *)
Definition ltb (x y : number) : bool :=
  match x, y with
  | NaN, _ | _, NaN => false
  | Infinity a, Infinity b => a && negb b
  | Infinity a, Fin _ _ => a
  | Fin _ _, Infinity b => negb b
  | Fin m1 s1, Fin m2 s2 => m1 * pow10 s2 <? m2 * pow10 s1
  end.

Definition leb (x y : number) : bool :=
  match x, y with
  | NaN, _ | _, NaN => false
  | Infinity a, Infinity b => a || negb b
  | Infinity a, Fin _ _ => a
  | Fin _ _, Infinity b => negb b
  | Fin m1 s1, Fin m2 s2 => m1 * pow10 s2 <=? m2 * pow10 s1
  end.

(** [Math.round]: the nearest integer, a tie going towards +Infinity. *)
Definition Math_round (x : number) : number :=
  match x with
  | Fin m s => Fin ((2 * m + pow10 s) / (2 * pow10 s)) 0
  | _ => x
  end.

(* ================================================================= *)
(** * The data model *)

Module Expense.
Record t : Type := mk {
  id : jsstring;
  date : jsstring;       (* YYYY-MM-DD *)
  amount : number;       (* in major units *)
  category : jsstring;
  note : jsstring
}.
End Expense.

Definition STORAGE_KEY : jsstring := lit "expenses_v1".

Definition CATEGORIES : list jsstring :=
  map lit ["Groceries"; "Dining"; "Transport"; "Housing"; "Health";
           "Entertainment"; "Utilities"; "Travel"; "Other"]%string.

(* ================================================================= *)
(** * Decimal digits *)

Definition is_digit (c : Z) : bool := (48 <=? c) && (c <=? 57).

(** The longest prefix of decimal digits, as digit values, and the rest. *)
Fixpoint span_digits (s : jsstring) : list Z * jsstring :=
  match s with
  | c :: s' =>
      if is_digit c
      then let (ds, r) := span_digits s' in ((c - 48) :: ds, r)
      else ([], s)
  | [] => ([], [])
  end.

Definition digits_value (ds : list Z) : Z :=
  fold_left (fun a d => 10 * a + d) ds 0.

Fixpoint digits_fuel (fuel : nat) (n : Z) (acc : list Z) : list Z :=
  match fuel with
  | O => acc
  | S f =>
      if n <? 10 then n :: acc
      else digits_fuel f (n / 10) (n mod 10 :: acc)
  end.

(** The decimal digits of [n >= 0], most significant first, ["0"] for 0. *)
Definition digits (n : Z) : list Z :=
  digits_fuel (S (Z.to_nat (Z.log2 n))) n [].

Definition digit_chars (ds : list Z) : jsstring := map (fun d => d + 48) ds.

(** [String(n)] for an integer [n]. *)
Definition Z_toString (n : Z) : jsstring :=
  if n <? 0 then 45 :: digit_chars (digits (- n)) else digit_chars (digits n).

(** [m * 10^e] as a number. *)
Definition scale10 (m e : Z) : number :=
  if 0 <=? e then Fin (m * 10 ^ e) 0 else norm m (Z.to_nat (- e)).

(* ================================================================= *)
(** * parseFloat *)

Fixpoint starts_with (p s : jsstring) : bool :=
  match p, s with
  | [], _ => true
  | x :: p', y :: s' => (x =? y) && starts_with p' s'
  | _ :: _, [] => false
  end.

Definition is_nil {A} (l : list A) : bool :=
  match l with [] => true | _ :: _ => false end.

(** [ExponentPart]: [e] or [E], an optional sign and at least one digit.  An
    incomplete exponent is not part of the literal. *)
Definition exponent_part (s : jsstring) : Z :=
  match s with
  | c :: r =>
      if (c =? 101) || (c =? 69) then
        match r with
        | c' :: r' =>
            if c' =? 45 then - digits_value (fst (span_digits r'))
            else if c' =? 43 then digits_value (fst (span_digits r'))
            else digits_value (fst (span_digits r))
        | [] => 0
        end
      else 0
  | [] => 0
  end.

(** The value of the longest prefix that is a [StrUnsignedDecimalLiteral]:
    [Infinity], digits with an optional point and more digits, or a point
    and digits; then an optional exponent. *)
Definition StrUnsignedDecimalLiteral (s : jsstring) : option number :=
  if starts_with (lit "Infinity") s then Some (Infinity false)
  else
    let (ip, r1) := span_digits s in
    let (fp, r2) :=
      match r1 with
      | c :: r => if c =? 46 then span_digits r else ([], r1)
      | [] => ([], r1)
      end in
    if is_nil ip && is_nil fp then None
    else Some (scale10 (digits_value (ip ++ fp))
                       (exponent_part r2 - Z.of_nat (List.length fp))).

Definition parseFloat (s : jsstring) : number :=
  let t := trimStart s in
  let (negative, u) :=
    match t with
    | c :: r =>
        if c =? 45 then (true, r)
        else if c =? 43 then (false, r)
        else (false, t)
    | [] => (false, t)
    end in
  match StrUnsignedDecimalLiteral u with
  | Some v => if negative then neg v else v
  | None => NaN
  end.

(* ================================================================= *)
(** * Array.prototype.sort, Set and Map *)

Section Sort.
Context {A : Type}.
(** [comparefn]; a [NaN] result counts as 0. *)
Variable comparefn : A -> A -> number.

Definition after (x y : A) : bool := ltb zero (comparefn x y).

Fixpoint sort_insert (x : A) (l : list A) : list A :=
  match l with
  | [] => [x]
  | y :: l' => if after x y then y :: sort_insert x l' else x :: l
  end.

(** The standard requires a stable sort: elements that compare equal keep
    their order.  For a consistent [comparefn] that fixes the result, which
    insertion from the right computes. *)
Fixpoint Array_sort (l : list A) : list A :=
  match l with
  | [] => []
  | x :: l' => sort_insert x (Array_sort l')
  end.
End Sort.

(** The comparison [sort()] uses without a [comparefn], on strings. *)
Definition default_compare (x y : jsstring) : number :=
  if str_ltb x y then Fin (-1) 0
  else if str_ltb y x then Fin 1 0
  else zero.

Definition str_mem (x : jsstring) (l : list jsstring) : bool :=
  existsb (str_eqb x) l.

(** [Array.from(new Set(l))]: the distinct elements in order of first
    occurrence. *)
Definition Set_add (acc : list jsstring) (x : jsstring) : list jsstring :=
  if str_mem x acc then acc else acc ++ [x].

Definition Set_from (l : list jsstring) : list jsstring :=
  fold_left Set_add l [].

(** The [comparefn] of the "Top category" card, [(a, b) => b[1] - a[1]]. *)
Definition by_amount_desc {K : Type} (a b : K * number) : number :=
  sub (snd b) (snd a).

(** A [Map] with string keys: its entries in insertion order. *)
Definition Map (V : Type) : Type := list (jsstring * V).

Fixpoint Map_get {V} (m : Map V) (k : jsstring) : option V :=
  match m with
  | [] => None
  | (k', v) :: m' => if str_eqb k' k then Some v else Map_get m' k
  end.

(** [set] of a present key replaces the value in place, of an absent key
    appends an entry. *)
Fixpoint Map_set {V} (m : Map V) (k : jsstring) (v : V) : Map V :=
  match m with
  | [] => [(k, v)]
  | (k', v') :: m' =>
      if str_eqb k' k then (k', v) :: m' else (k', v') :: Map_set m' k v
  end.

(* ================================================================= *)
(** * Dates *)

Definition two_digits (s : jsstring) : option (Z * jsstring) :=
  match s with
  | a :: b :: r =>
      if is_digit a && is_digit b then Some (10 * (a - 48) + (b - 48), r)
      else None
  | _ => None
  end.

Definition four_digits (s : jsstring) : option (Z * jsstring) :=
  match two_digits s with
  | Some (hi, r) =>
      match two_digits r with
      | Some (lo, r') => Some (100 * hi + lo, r')
      | None => None
      end
  | None => None
  end.

Definition is_leap (y : Z) : bool :=
  ((y mod 4 =? 0) && negb (y mod 100 =? 0)) || (y mod 400 =? 0).

Definition days_in_month (y m : Z) : Z :=
  if m =? 2 then (if is_leap y then 29 else 28)
  else if (m =? 4) || (m =? 6) || (m =? 9) || (m =? 11) then 30
  else 31.

(** [new Date(s)] for a date-time string without offset, read as local time:
    the local year and month index, [None] for an Invalid Date.  The standard
    fixes the result on its own format and leaves other strings to the
    engine, so the page is modelled over any such function;
    [Date_local_iso] is the one that accepts the format
    [YYYY-MM-DDT00:00:00] only. *)
Definition Date_local_iso (s : jsstring) : option (Z * Z) :=
  match four_digits s with
  | Some (y, 45 :: r1) =>
      match two_digits r1 with
      | Some (m, 45 :: r2) =>
          match two_digits r2 with
          | Some (d, r3) =>
              if str_eqb r3 (lit "T00:00:00")
                 && (1 <=? m) && (m <=? 12)
                 && (1 <=? d) && (d <=? days_in_month y m)
              then Some (y, m - 1)
              else None
          | None => None
          end
      | _ => None
      end
  | _ => None
  end.

(** [s.padStart(2, "0")]. *)
Definition padStart2 (s : jsstring) : jsstring :=
  match s with
  | [] => [48; 48]
  | [c] => [48; c]
  | _ => s
  end.

(* ================================================================= *)
(** * The page *)

(** The React state of [Page]. *)
Record State : Type := mkState {
  expenses : list Expense.t;
  date : jsstring;
  amount : jsstring;
  category : jsstring;
  note : jsstring;
  filterMonth : jsstring
}.

Section Page.
(** [new Date(s)] of the engine the page runs on. *)
Variable Date_local : jsstring -> option (Z * Z).

(** [new Date().toISOString().slice(0,10)] when the page reads the clock. *)
Variable today : jsstring.

Definition monthKey (dateStr : jsstring) : jsstring :=
  match Date_local (dateStr ++ lit "T00:00:00") with
  | Some (y, m) => Z_toString y ++ lit "-" ++ padStart2 (Z_toString (m + 1))
  | None => lit "NaN-NaN"
  end.

Definition initial : State :=
  {| expenses := [];
     date := today;
     amount := [];
     category := nth 0 CATEGORIES [];
     note := [];
     filterMonth := monthKey today |}.

(** The [max] attribute of the date input: the bound the page puts on the
    date a user picks.  Nothing reads it back when the entry is added. *)
Definition date_input_max : jsstring := today.

Definition filtered (st : State) : list Expense.t :=
  filter (fun e => str_eqb (monthKey (Expense.date e)) (filterMonth st))
         (expenses st).

(** [totals], from the filtered entries. *)
Definition total (l : list Expense.t) : number :=
  fold_left (fun s e => add s (Expense.amount e)) l zero.

Definition byCategory (l : list Expense.t) : Map number :=
  fold_left
    (fun m e =>
       Map_set m (Expense.category e)
         (add (match Map_get m (Expense.category e) with
               | Some v => v
               | None => zero
               end)
              (Expense.amount e)))
    l [].

Definition totals (st : State) : number * Map number :=
  (total (filtered st), byCategory (filtered st)).

(** [addExpense]; [uuid] is what [crypto.randomUUID()] returns.  An empty
    string is the only falsy [date]. *)
Definition addExpense (uuid : jsstring) (st : State) : State :=
  let value := parseFloat (amount st) in
  if is_nil (date st) || isNaN value || leb value zero then st
  else
    let item :=
      {| Expense.id := uuid;
         Expense.date := date st;
         Expense.amount := div_pow10 (Math_round (mul value (Fin 100 0))) 2;
         Expense.category := category st;
         Expense.note := trim (note st) |} in
    {| expenses := item :: expenses st;
       date := date st;
       amount := [];
       category := category st;
       note := [];
       filterMonth := filterMonth st |}.

Definition removeExpense (id : jsstring) (st : State) : State :=
  {| expenses :=
       filter (fun e => negb (str_eqb (Expense.id e) id)) (expenses st);
     date := date st;
     amount := amount st;
     category := category st;
     note := note st;
     filterMonth := filterMonth st |}.

Definition monthsAvailable (st : State) : list jsstring :=
  let keys :=
    rev (Array_sort default_compare
           (Set_from (map (fun e => monthKey (Expense.date e))
                          (expenses st)))) in
  match keys with
  | [] => keys ++ [monthKey today]
  | _ => keys
  end.

(** The entry the "Top category" card shows; [None] is the placeholder of
    an empty map. *)
Definition topCategory (m : Map number) : option (jsstring * number) :=
  match m with
  | [] => None
  | _ => hd_error (Array_sort by_amount_desc m)
  end.

Definition setDate (v : jsstring) (st : State) : State :=
  {| expenses := expenses st; date := v; amount := amount st;
     category := category st; note := note st;
     filterMonth := filterMonth st |}.

Definition setAmount (v : jsstring) (st : State) : State :=
  {| expenses := expenses st; date := date st; amount := v;
     category := category st; note := note st;
     filterMonth := filterMonth st |}.

Definition setCategory (v : jsstring) (st : State) : State :=
  {| expenses := expenses st; date := date st; amount := amount st;
     category := v; note := note st; filterMonth := filterMonth st |}.

Definition setNote (v : jsstring) (st : State) : State :=
  {| expenses := expenses st; date := date st; amount := amount st;
     category := category st; note := v; filterMonth := filterMonth st |}.

Definition setFilterMonth (v : jsstring) (st : State) : State :=
  {| expenses := expenses st; date := date st; amount := amount st;
     category := category st; note := note st; filterMonth := v |}.
End Page.


(* ================================================================= *)
(** * JSON *)

(** The values [JSON.parse] builds and the ones the page serialises.  An
    object is the list of its properties in creation order. *)
Inductive value : Type :=
| VNull
| VBool (b : bool)
| VNum (n : number)
| VStr (s : jsstring)
| VArr (l : list value)
| VObj (l : list (jsstring * value)).

(** ** Number::toString *)

Fixpoint drop_zeros (ds : list Z) : list Z :=
  match ds with
  | d :: ds' => if d =? 0 then drop_zeros ds' else ds
  | [] => []
  end.

Definition strip_trailing_zeros (ds : list Z) : list Z :=
  rev (drop_zeros (rev ds)).

(** A positive [m / 10^s0].  With [k] significant digits [ds] and the decimal
    point after the [n]-th of them: exponent notation when [n < -5] or
    [n > 21], else digits padded with zeros, digits around a point, or
    ["0."], zeros and the digits. *)
Definition Number_toString_pos (m : Z) (s0 : nat) : jsstring :=
  let ds0 := digits m in
  let ds := strip_trailing_zeros ds0 in
  let k := List.length ds in
  let n := Z.of_nat (List.length ds0) - Z.of_nat s0 in
  if (n <? -5) || (21 <? n) then
    let e := n - 1 in
    match ds with
    | d :: rest =>
        digit_chars [d]
        ++ match rest with [] => [] | _ => 46 :: digit_chars rest end
        ++ [101] ++ (if e <? 0 then [45] else [43])
        ++ digit_chars (digits (Z.abs e))
    | [] => []
    end
  else if 0 <? n then
    if Z.of_nat k <=? n
    then digit_chars ds ++ repeat 48 (Z.to_nat n - k)
    else digit_chars (firstn (Z.to_nat n) ds)
         ++ [46] ++ digit_chars (skipn (Z.to_nat n) ds)
  else [48; 46] ++ repeat 48 (Z.to_nat (- n)) ++ digit_chars ds.

Definition Number_toString (x : number) : jsstring :=
  match x with
  | NaN => lit "NaN"
  | Infinity false => lit "Infinity"
  | Infinity true => lit "-Infinity"
  | Fin m s =>
      if m =? 0 then [48]
      else if m <? 0 then 45 :: Number_toString_pos (- m) s
      else Number_toString_pos m s
  end.

(** ** JSON.stringify *)

Definition hex_char (d : Z) : Z := if d <? 10 then d + 48 else d + 87.

(** [\uXXXX], lower case. *)
Definition UnicodeEscape (c : Z) : jsstring :=
  [92; 117; hex_char (c / 4096); hex_char (c / 256 mod 16);
   hex_char (c / 16 mod 16); hex_char (c mod 16)].

Definition is_high_surrogate (c : Z) : bool := (55296 <=? c) && (c <=? 56319).
Definition is_low_surrogate (c : Z) : bool := (56320 <=? c) && (c <=? 57343).

(** One code unit that is not half of a surrogate pair. *)
Definition quote_char (c : Z) : jsstring :=
  if c =? 8 then [92; 98]
  else if c =? 9 then [92; 116]
  else if c =? 10 then [92; 110]
  else if c =? 12 then [92; 102]
  else if c =? 13 then [92; 114]
  else if c =? 34 then [92; 34]
  else if c =? 92 then [92; 92]
  else if (c <? 32) || is_high_surrogate c || is_low_surrogate c
       then UnicodeEscape c
  else [c].

Fixpoint quote_body (s : jsstring) : jsstring :=
  match s with
  | [] => []
  | c :: r =>
      match r with
      | c2 :: r2 =>
          if is_high_surrogate c && is_low_surrogate c2
          then c :: c2 :: quote_body r2
          else quote_char c ++ quote_body r
      | [] => quote_char c
      end
  end.

Definition QuoteJSONString (s : jsstring) : jsstring :=
  [34] ++ quote_body s ++ [34].

Fixpoint join (sep : jsstring) (l : list jsstring) : jsstring :=
  match l with
  | [] => []
  | [x] => x
  | x :: l' => x ++ sep ++ join sep l'
  end.

Fixpoint JSON_stringify (v : value) : jsstring :=
  match v with
  | VNull => lit "null"
  | VBool true => lit "true"
  | VBool false => lit "false"
  | VNum n => if isFinite n then Number_toString n else lit "null"
  | VStr s => QuoteJSONString s
  | VArr l => [91] ++ join [44] (map JSON_stringify l) ++ [93]
  | VObj l =>
      [123]
      ++ join [44]
           (map (fun kv => QuoteJSONString (fst kv) ++ [58]
                           ++ JSON_stringify (snd kv)) l)
      ++ [125]
  end.

(** ** JSON.parse *)

Definition is_json_ws (c : Z) : bool :=
  (c =? 9) || (c =? 10) || (c =? 13) || (c =? 32).

Fixpoint skip_ws (s : jsstring) : jsstring :=
  match s with
  | c :: r => if is_json_ws c then skip_ws r else s
  | [] => []
  end.

Definition hex_value (c : Z) : option Z :=
  if (48 <=? c) && (c <=? 57) then Some (c - 48)
  else if (97 <=? c) && (c <=? 102) then Some (c - 87)
  else if (65 <=? c) && (c <=? 70) then Some (c - 55)
  else None.

Definition hex4 (a b c d : Z) : option Z :=
  match hex_value a, hex_value b, hex_value c, hex_value d with
  | Some x, Some y, Some z, Some w => Some (4096 * x + 256 * y + 16 * z + w)
  | _, _, _, _ => None
  end.

(** The single-character escapes. *)
Definition unescape (e : Z) : option Z :=
  if e =? 34 then Some 34
  else if e =? 92 then Some 92
  else if e =? 47 then Some 47
  else if e =? 98 then Some 8
  else if e =? 102 then Some 12
  else if e =? 110 then Some 10
  else if e =? 114 then Some 13
  else if e =? 116 then Some 9
  else None.

(** The characters of a string after its opening quote, up to the closing
    one; [acc] holds the code units read so far, last first. *)
Fixpoint parse_string_body (s acc : jsstring) : option (jsstring * jsstring) :=
  match s with
  | [] => None
  | c :: r =>
      if c =? 34 then Some (rev acc, r)
      else if c =? 92 then
        match r with
        | e :: r1 =>
            if e =? 117 then
              match r1 with
              | h1 :: h2 :: h3 :: h4 :: r2 =>
                  match hex4 h1 h2 h3 h4 with
                  | Some u => parse_string_body r2 (u :: acc)
                  | None => None
                  end
              | _ => None
              end
            else
              match unescape e with
              | Some u => parse_string_body r1 (u :: acc)
              | None => None
              end
        | [] => None
        end
      else if c <? 32 then None
      else parse_string_body r (c :: acc)
  end.

(** An optional exponent: [e] or [E], an optional sign, digits. *)
Definition json_exponent (s : jsstring) : option (Z * jsstring) :=
  match s with
  | c :: r =>
      if (c =? 101) || (c =? 69) then
        let (negative, r') :=
          match r with
          | c' :: t =>
              if c' =? 45 then (true, t)
              else if c' =? 43 then (false, t)
              else (false, r)
          | [] => (false, r)
          end in
        let (ds, rest) := span_digits r' in
        if is_nil ds then None
        else Some (if negative then - digits_value ds else digits_value ds,
                   rest)
      else Some (0, s)
  | [] => Some (0, s)
  end.

(** An optional fraction: a point and digits. *)
Definition json_fraction (s : jsstring) : option (list Z * jsstring) :=
  match s with
  | c :: r =>
      if c =? 46 then
        let (fp, rest) := span_digits r in
        if is_nil fp then None else Some (fp, rest)
      else Some ([], s)
  | [] => Some ([], s)
  end.

(** A JSON number: [-]? int frac? exp?, an int of several digits not
    starting with 0. *)
Definition parse_number (s : jsstring) : option (number * jsstring) :=
  let (negative, s1) :=
    match s with
    | c :: r => if c =? 45 then (true, r) else (false, s)
    | [] => (false, s)
    end in
  let (ip, r1) := span_digits s1 in
  match ip with
  | [] => None
  | d :: ip' =>
      if (d =? 0) && negb (is_nil ip') then None
      else
        match json_fraction r1 with
        | Some (fp, r2) =>
            match json_exponent r2 with
            | Some (e, r3) =>
                let v := scale10 (digits_value (ip ++ fp))
                                 (e - Z.of_nat (List.length fp)) in
                Some (if negative then neg v else v, r3)
            | None => None
            end
        | None => None
        end
  end.

(** A later property of the same name replaces the value and keeps the
    place of the first.  (An engine lists keys that are array indices first;
    the page has no such key.) *)
Definition obj_set (o : list (jsstring * value)) (k : jsstring) (v : value)
  : list (jsstring * value) := Map_set o k v.

Fixpoint parse_value (fuel : nat) (s : jsstring) {struct fuel}
  : option (value * jsstring) :=
  match fuel with
  | O => None
  | S f =>
      match skip_ws s with
      | [] => None
      | c :: r =>
          if c =? 123 then
            match skip_ws r with
            | c2 :: r2 =>
                if c2 =? 125 then Some (VObj [], r2)
                else
                  match parse_members f (c2 :: r2) [] with
                  | Some (o, r3) => Some (VObj o, r3)
                  | None => None
                  end
            | [] => None
            end
          else if c =? 91 then
            match skip_ws r with
            | c2 :: r2 =>
                if c2 =? 93 then Some (VArr [], r2)
                else
                  match parse_elements f (c2 :: r2) [] with
                  | Some (l, r3) => Some (VArr l, r3)
                  | None => None
                  end
            | [] => None
            end
          else if c =? 34 then
            match parse_string_body r [] with
            | Some (str, r1) => Some (VStr str, r1)
            | None => None
            end
          else if starts_with (lit "true") (c :: r)
          then Some (VBool true, skipn 4 (c :: r))
          else if starts_with (lit "false") (c :: r)
          then Some (VBool false, skipn 5 (c :: r))
          else if starts_with (lit "null") (c :: r)
          then Some (VNull, skipn 4 (c :: r))
          else
            match parse_number (c :: r) with
            | Some (n, r1) => Some (VNum n, r1)
            | None => None
            end
      end
  end

with parse_elements (fuel : nat) (s : jsstring) (acc : list value)
       {struct fuel} : option (list value * jsstring) :=
  match fuel with
  | O => None
  | S f =>
      match parse_value f s with
      | Some (v, r) =>
          match skip_ws r with
          | c :: r1 =>
              if c =? 44 then parse_elements f r1 (v :: acc)
              else if c =? 93 then Some (rev (v :: acc), r1)
              else None
          | [] => None
          end
      | None => None
      end
  end

with parse_members (fuel : nat) (s : jsstring) (acc : list (jsstring * value))
       {struct fuel} : option (list (jsstring * value) * jsstring) :=
  match fuel with
  | O => None
  | S f =>
      match skip_ws s with
      | c :: r =>
          if c =? 34 then
            match parse_string_body r [] with
            | Some (k, r1) =>
                match skip_ws r1 with
                | c1 :: r2 =>
                    if c1 =? 58 then
                      match parse_value f r2 with
                      | Some (v, r3) =>
                          match skip_ws r3 with
                          | c3 :: r4 =>
                              if c3 =? 44
                              then parse_members f r4 (obj_set acc k v)
                              else if c3 =? 125
                              then Some (obj_set acc k v, r4)
                              else None
                          | [] => None
                          end
                      | None => None
                      end
                    else None
                | [] => None
                end
            | None => None
            end
          else None
      | [] => None
      end
  end.

(** [JSON.parse]: one value between optional white space; [None] stands for
    the [SyntaxError] it throws.  Twice the length of the text is enough
    fuel ([JSON_parse_fuel] below). *)
Definition JSON_parse (s : jsstring) : option value :=
  match parse_value (2 * List.length s + 2) s with
  | Some (v, r) =>
      match skip_ws r with
      | [] => Some v
      | _ :: _ => None
      end
  | None => None
  end.

(* ================================================================= *)
(** * Persistence *)

(** [localStorage]: string values under string keys. *)
Definition Storage : Type := Map jsstring.

Definition getItem (ls : Storage) (k : jsstring) : option jsstring :=
  Map_get ls k.

Definition setItem (ls : Storage) (k v : jsstring) : Storage :=
  Map_set ls k v.

(** The collection as the run-time value held in the [expenses] state. *)
Definition Expense_value (e : Expense.t) : value :=
  VObj [(lit "id", VStr (Expense.id e));
        (lit "date", VStr (Expense.date e));
        (lit "amount", VNum (Expense.amount e));
        (lit "category", VStr (Expense.category e));
        (lit "note", VStr (Expense.note e))].

Definition expenses_value (c : list Expense.t) : value :=
  VArr (map Expense_value c).

(** The effect that runs on mount.  It leaves the initial state [[]] when
    the slot is absent or holds the empty string and when [JSON.parse]
    throws; otherwise [setExpenses] receives whatever was parsed: the cast
    [as Expense[]] checks nothing at run time. *)
Definition load (ls : Storage) : value :=
  match getItem ls STORAGE_KEY with
  | Some (c :: raw) =>
      match JSON_parse (c :: raw) with
      | Some v => v
      | None => VArr []
      end
  | _ => VArr []
  end.

(** The effect that runs after every change of [expenses]. *)
Definition save (expenses : value) (ls : Storage) : Storage :=
  setItem ls STORAGE_KEY (JSON_stringify expenses).

(* ================================================================= *)
(** * Vocabulary of the statements *)

(** [a <= b] on strings. *)
Definition str_le (a b : jsstring) : Prop := str_ltb b a = false.

(** [top] is the first entry of [l] with the greatest amount: every entry
    before it is smaller, no entry after it is greater. *)
Definition first_max {K : Type} (top : K * number) (l : list (K * number))
  : Prop :=
  exists pre post,
    l = pre ++ top :: post
    /\ (forall e, In e pre -> ltb (snd e) (snd top) = true)
    /\ (forall e, In e post -> leb (snd e) (snd top) = true).

Definition is_digit_value (d : Z) : Prop := 0 <= d <= 9.

(** A string is numeric for [parseFloat] when, after leading white space
    and one optional sign, it starts with [Infinity], with a digit, or with
    a point and a digit. *)
Definition starts_number (u : jsstring) : bool :=
  starts_with (lit "Infinity") u
  || match u with
     | c :: r =>
         is_digit c
         || ((c =? 46)
             && match r with d :: _ => is_digit d | [] => false end)
     | [] => false
     end.

Definition has_numeric_prefix (s : jsstring) : bool :=
  match trimStart s with
  | c :: r => if (c =? 45) || (c =? 43) then starts_number r
              else starts_number (c :: r)
  | [] => false
  end.

(** What may follow a run of digits, and what may follow a number. *)
Definition no_digit_ahead (s : jsstring) : Prop :=
  match s with c :: _ => is_digit c = false | [] => True end.

Definition number_end (s : jsstring) : Prop :=
  match s with
  | c :: _ => is_digit c = false /\ c <> 46 /\ c <> 101 /\ c <> 69
  | [] => True
  end.

(** The invariant of stored entries: code units in range and a finite amount
    in lowest terms. *)
Definition wf_Expense (e : Expense.t) : Prop :=
  wf_string (Expense.id e) /\ wf_string (Expense.date e)
  /\ isFinite (Expense.amount e) = true /\ canon (Expense.amount e)
  /\ wf_string (Expense.category e) /\ wf_string (Expense.note e).

Definition Expense_text_of (e : Expense.t) : jsstring :=
  JSON_stringify (Expense_value e).







(** The two claims about persistence, as the specification words them. *)
Definition roundtrip_claim (c : list Expense.t) (ls : Storage) : Prop :=
  exists c',
    load (save (expenses_value c) ls) = expenses_value c'
    /\ (forall e, In e c' <-> In e c).


(* ================================================================= *)
(** * Parts of the page's functions, and the controls *)

(** The guard of [addExpense], [!date || isNaN(value) || value <= 0], and
    the entry it builds when the guard lets the input through. *)
Definition add_rejected (st : State) : bool :=
  is_nil (date st) || isNaN (parseFloat (amount st))
  || leb (parseFloat (amount st)) zero.

Definition new_item (uuid : jsstring) (st : State) : Expense.t :=
  {| Expense.id := uuid;
     Expense.date := date st;
     Expense.amount :=
       div_pow10 (Math_round (mul (parseFloat (amount st)) (Fin 100 0))) 2;
     Expense.category := category st;
     Expense.note := trim (note st) |}.

(** The body of the loop that fills [byCategory]. *)
Definition byCategory_step (m : Map number) (e : Expense.t) : Map number :=
  Map_set m (Expense.category e)
    (add (match Map_get m (Expense.category e) with
          | Some v => v
          | None => zero
          end) (Expense.amount e)).

(** [e.category === k] and [e.id === id]. *)
Definition in_category (k : jsstring) (e : Expense.t) : bool :=
  str_eqb (Expense.category e) k.

Definition has_id (id : jsstring) (e : Expense.t) : bool :=
  str_eqb (Expense.id e) id.

(** [expenses.map(e => monthKey(e.date))], the argument of [new Set] in
    [monthsAvailable]. *)
Definition month_keys (Date_local : jsstring -> option (Z * Z)) (st : State)
  : list jsstring :=
  map (fun e => monthKey Date_local (Expense.date e)) (expenses st).

(** What a user does on the page: the [onChange] and [onClick] handlers of
    the controls.  [ClickAdd] carries what [crypto.randomUUID()] returns in
    the handler, [ClickDelete] the [id] of the row of the button. *)
Inductive event : Type :=
| ChangeMonth (v : jsstring)
| ChangeDate (v : jsstring)
| ChangeAmount (v : jsstring)
| ChangeCategory (v : jsstring)
| ChangeNote (v : jsstring)
| ClickAdd (uuid : jsstring)
| ClickDelete (id : jsstring).

Definition handle (ev : event) (st : State) : State :=
  match ev with
  | ChangeMonth v => setFilterMonth v st
  | ChangeDate v => setDate v st
  | ChangeAmount v => setAmount v st
  | ChangeCategory v => setCategory v st
  | ChangeNote v => setNote v st
  | ClickAdd uuid => addExpense uuid st
  | ClickDelete id => removeExpense id st
  end.

Definition run (evs : list event) (st : State) : State :=
  fold_left (fun s ev => handle ev s) evs st.




(** Each id that [ClickAdd] brings is new at its turn. *)
Fixpoint fresh_ids (evs : list event) (st : State) : Prop :=
  match evs with
  | [] => True
  | ev :: r =>
      match ev with
      | ClickAdd u => ~ In u (map Expense.id (expenses st))
      | _ => True
      end
      /\ fresh_ids r (handle ev st)
  end.

(** The category control has one option per entry of [CATEGORIES]. *)
Definition offered_category (ev : event) : Prop :=
  match ev with
  | ChangeCategory v => In v CATEGORIES
  | _ => True
  end.

Definition categories_offered (st : State) : Prop :=
  In (category st) CATEGORIES
  /\ Forall (fun e => In (Expense.category e) CATEGORIES) (expenses st).

(* ================================================================= *)
(** * Sample data *)

Definition sample_state : State :=
  {| expenses := [];
     date := lit "2024-03-05";
     amount := lit "12.346";
     category := lit "Dining";
     note := lit "  lunch ";
     filterMonth := lit "2024-03" |}.

Definition sample_entry : Expense.t :=
  {| Expense.id := lit "u-1";
     Expense.date := lit "2024-03-05";
     Expense.amount := Fin 1235 2;
     Expense.category := lit "Dining";
     Expense.note := [34; 92; 10; 233; 55357; 56832; 55357] |}.

(** The state after adding an entry whose amount field reads [Infinity]:
    the guard of [addExpense] lets it through. *)
Definition infinite_state : State :=
  addExpense (lit "u-2") (setAmount (lit "Infinity") sample_state).

(** Three entries of one month, amounts 10, 20 and 5, categories Dining,
    Dining and Travel, and one entry of the month before. *)
Definition entry_of (i d c : String.string) (a : number) : Expense.t :=
  {| Expense.id := lit i; Expense.date := lit d; Expense.amount := a;
     Expense.category := lit c; Expense.note := [] |}.

Definition scenario_state : State :=
  {| expenses :=
       [entry_of "4" "2024-02-28" "Other" (Fin 7 0);
        entry_of "3" "2024-03-09" "Travel" (Fin 5 0);
        entry_of "2" "2024-03-05" "Dining" (Fin 20 0);
        entry_of "1" "2024-03-01" "Dining" (Fin 10 0)];
     date := lit "2024-03-09";
     amount := [];
     category := lit "Travel";
     note := [];
     filterMonth := lit "2024-03" |}.

Definition sample_map : Map number :=
  [(lit "Dining", Fin 30 0); (lit "Travel", Fin 305 1);
   (lit "Other", Fin 5 0); (lit "Health", Fin 3050 2)].

(** A session on the sample form: add the entry typed, type another amount
    and a note, add again, delete the first entry. *)
Definition sample_session : list event :=
  [ClickAdd (lit "u-1"); ChangeAmount (lit "3"); ChangeNote (lit "tea");
   ClickAdd (lit "u-2"); ClickDelete (lit "u-1")].

(* ================================================================= *)
(** * Facts about strings *)

Lemma str_eqb_refl (a : jsstring) : str_eqb a a = true.
Proof.
  induction a as [|x a IH]; simpl; [reflexivity|].
  now rewrite Z.eqb_refl, IH.
Qed.

Lemma str_eqb_eq (a b : jsstring) : str_eqb a b = true <-> a = b.
Proof.
  split.
  - revert b; induction a as [|x a IH]; intros [|y b]; simpl; try discriminate;
      [reflexivity|].
    intros H; apply andb_prop in H as [Hx Hr].
    apply Z.eqb_eq in Hx; subst y. f_equal. now apply IH.
  - intros ->. apply str_eqb_refl.
Qed.

Lemma str_eqb_neq (a b : jsstring) : str_eqb a b = false <-> a <> b.
Proof.
  rewrite <- str_eqb_eq. destruct (str_eqb a b); split; congruence.
Qed.

Lemma str_ltb_irrefl (a : jsstring) : str_ltb a a = false.
Proof.
  induction a as [|x a IH]; simpl; [reflexivity|].
  now rewrite Z.ltb_irrefl, Z.eqb_refl, IH.
Qed.

Lemma str_ltb_trans (a b c : jsstring) :
  str_ltb a b = true -> str_ltb b c = true -> str_ltb a c = true.
Proof.
  revert b c; induction a as [|x a IH]; intros [|y b] [|z c]; simpl;
    try discriminate; try reflexivity.
  intros H1 H2.
  apply orb_prop in H1; apply orb_prop in H2; apply orb_true_intro.
  destruct H1 as [H1|H1], H2 as [H2|H2];
    rewrite ?andb_true_iff, ?Z.ltb_lt, ?Z.eqb_eq in *.
  - left; lia.
  - left; lia.
  - left; lia.
  - destruct H1 as [-> H1], H2 as [-> H2]. right; split; [reflexivity|].
    now apply IH with b.
Qed.

(** The order on strings is total: two different strings compare one way. *)
Lemma str_ltb_total (a b : jsstring) :
  str_ltb a b = false -> str_ltb b a = false -> a = b.
Proof.
  revert b; induction a as [|x a IH]; intros [|y b]; simpl;
    try discriminate; try reflexivity.
  intros H1 H2.
  apply orb_false_elim in H1 as [H1 H1'].
  apply orb_false_elim in H2 as [H2 H2'].
  apply Z.ltb_ge in H1, H2.
  assert (x = y) by lia; subst y.
  rewrite Z.eqb_refl in H1', H2'; simpl in *.
  f_equal; now apply IH.
Qed.



Lemma trimStart_idem (s : jsstring) :
  match s with c :: _ => is_space c = false | [] => True end ->
  trimStart s = s.
Proof. destruct s as [|c s]; simpl; [reflexivity|]. now intros ->. Qed.


(* ================================================================= *)
(** * Facts about numbers *)

Lemma pow10_pos n : 0 < pow10 n.
Proof. unfold pow10. apply Z.pow_pos_nonneg; lia. Qed.

Lemma pow10_S n : pow10 (S n) = 10 * pow10 n.
Proof. unfold pow10. rewrite Nat2Z.inj_succ, Z.pow_succ_r; lia. Qed.

Lemma pow10_add a b : pow10 (a + b) = pow10 a * pow10 b.
Proof. unfold pow10. rewrite Nat2Z.inj_add, Z.pow_add_r; lia. Qed.

Lemma pow10_sub a b : (b <= a)%nat -> pow10 (a - b) * pow10 b = pow10 a.
Proof. intros H. rewrite <- pow10_add. f_equal. lia. Qed.

Lemma same_value_trans m1 s1 m2 s2 m3 s3 :
  same_value m1 s1 m2 s2 -> same_value m2 s2 m3 s3 -> same_value m1 s1 m3 s3.
Proof.
  unfold same_value. intros H1 H2.
  pose proof (pow10_pos s1). pose proof (pow10_pos s2). pose proof (pow10_pos s3).
  apply Z.mul_reg_r with (pow10 s2); [lia|].
  transitivity (m2 * pow10 s1 * pow10 s3); [rewrite <- H1; ring|].
  transitivity (m2 * pow10 s3 * pow10 s1); [ring|rewrite H2; ring].
Qed.

Lemma norm_spec m s :
  exists m' s', norm m s = Fin m' s' /\ same_value m' s' m s
                /\ canon (Fin m' s') /\ (s' <= s)%nat.
Proof.
  revert m; induction s as [|s IH]; intros m; simpl.
  - exists m, O. unfold same_value. repeat split; auto.
  - destruct (m mod 10 =? 0) eqn:E.
    + apply Z.eqb_eq in E.
      destruct (IH (m / 10)) as [m' [s' [E1 [V [C L]]]]].
      exists m', s'. repeat split; auto.
      unfold same_value in *. rewrite pow10_S.
      pose proof (Z.div_mod m 10 ltac:(lia)) as D. rewrite E in D.
      remember (m / 10) as q. rewrite D.
      replace (m' * (10 * pow10 s)) with (10 * (m' * pow10 s)) by ring.
      rewrite V. ring.
    + apply Z.eqb_neq in E. exists m, (S s).
      unfold same_value. repeat split; simpl; auto.
Qed.

Lemma canon_unique m1 s1 m2 s2 :
  canon (Fin m1 s1) -> canon (Fin m2 s2) -> same_value m1 s1 m2 s2 ->
  Fin m1 s1 = Fin m2 s2.
Proof.
  assert (W : forall m1 s1 m2 s2, (s1 <= s2)%nat ->
     canon (Fin m2 s2) -> same_value m1 s1 m2 s2 -> Fin m1 s1 = Fin m2 s2).
  { clear. intros m1 s1 m2 s2 L C V. unfold same_value in V.
    assert (V' : m1 * pow10 (s2 - s1) = m2).
    { apply Z.mul_reg_r with (pow10 s1); [pose proof (pow10_pos s1); lia|].
      rewrite <- Z.mul_assoc, pow10_sub by lia. exact V. }
    clear V; rename V' into V.
    destruct (s2 - s1)%nat as [|d] eqn:D.
    - assert (s1 = s2) by lia. subst s2. f_equal. rewrite <- V.
      unfold pow10; simpl; lia.
    - exfalso. simpl in C. destruct C as [C|C]; [lia|]. apply C.
      rewrite <- V, pow10_S.
      replace (m1 * (10 * pow10 d)) with (m1 * pow10 d * 10) by ring.
      apply Z.mod_mul; lia. }
  intros C1 C2 V. destruct (Nat.le_ge_cases s1 s2) as [L|L].
  - now apply W.
  - symmetry. apply W; auto. unfold same_value in *. lia.
Qed.

Lemma norm_eq m1 s1 m2 s2 :
  same_value m1 s1 m2 s2 -> norm m1 s1 = norm m2 s2.
Proof.
  intros V.
  destruct (norm_spec m1 s1) as [a [sa [Ea [Va [Ca _]]]]].
  destruct (norm_spec m2 s2) as [b [sb [Eb [Vb [Cb _]]]]].
  rewrite Ea, Eb. apply canon_unique; auto.
  eapply same_value_trans; [exact Va|].
  eapply same_value_trans; [exact V|].
  unfold same_value in *. lia.
Qed.

Lemma norm_canon m s : canon (Fin m s) -> norm m s = Fin m s.
Proof.
  destruct s as [|s]; simpl; [reflexivity|].
  intros [C|C]; [discriminate|].
  apply Z.eqb_neq in C. now rewrite C.
Qed.

Lemma norm_Fin m s : exists m' s', norm m s = Fin m' s'.
Proof. destruct (norm_spec m s) as [a [sa [E _]]]. eauto. Qed.


(** Addition of finite numbers over the product of the denominators. *)
Lemma add_Fin m1 s1 m2 s2 :
  add (Fin m1 s1) (Fin m2 s2)
  = norm (m1 * pow10 s2 + m2 * pow10 s1) (s1 + s2).
Proof.
  simpl. apply norm_eq. unfold same_value.
  set (S := Nat.max s1 s2).
  assert (E1 : pow10 (S - s1) * pow10 s1 = pow10 S) by (apply pow10_sub; lia).
  assert (E2 : pow10 (S - s2) * pow10 s2 = pow10 S) by (apply pow10_sub; lia).
  rewrite pow10_add.
  transitivity (m1 * pow10 s2 * (pow10 (S - s1) * pow10 s1)
                + m2 * pow10 s1 * (pow10 (S - s2) * pow10 s2)); [ring|].
  rewrite E1, E2. ring.
Qed.





(* ================================================================= *)
(** * Totals *)





(* ================================================================= *)
(** * The top category *)

Lemma ltb_leb x y : ltb x y = true -> leb x y = true.
Proof.
  destruct x as [|a|m1 s1], y as [|b|m2 s2]; simpl; try discriminate; auto.
  - destruct a, b; auto.
  - rewrite Z.ltb_lt, Z.leb_le. lia.
Qed.

Lemma ltb_false_leb x y :
  isNaN x = false -> isNaN y = false -> ltb x y = false -> leb y x = true.
Proof.
  destruct x as [|a|m1 s1], y as [|b|m2 s2]; simpl; try discriminate; auto.
  - destruct a, b; auto.
  - destruct a; auto.
  - destruct b; auto.
  - intros _ _. rewrite Z.ltb_ge, Z.leb_le. lia.
Qed.

Lemma leb_refl x : isNaN x = false -> leb x x = true.
Proof.
  destruct x as [|b|m s]; simpl; [discriminate| |]; intros _.
  - now destruct b.
  - apply Z.leb_refl.
Qed.

Lemma leb_trans x y z :
  leb x y = true -> leb y z = true -> leb x z = true.
Proof.
  destruct x as [|a|m1 s1], y as [|b|m2 s2], z as [|c|m3 s3]; simpl;
    try discriminate; auto;
    try (destruct a, b, c; simpl; auto; discriminate);
    try (destruct a, b; simpl; auto; discriminate);
    try (destruct a, c; simpl; auto; discriminate);
    try (destruct b, c; simpl; auto; discriminate);
    try (destruct a; simpl; auto; discriminate);
    try (destruct b; simpl; auto; discriminate);
    try (destruct c; simpl; auto; discriminate).
  rewrite !Z.leb_le. intros H1 H2.
  pose proof (pow10_pos s1). pose proof (pow10_pos s2). pose proof (pow10_pos s3).
  apply Z.mul_le_mono_pos_r with (pow10 s2); [lia|].
  transitivity (m2 * pow10 s1 * pow10 s3).
  - replace (m1 * pow10 s3 * pow10 s2) with (m1 * pow10 s2 * pow10 s3) by ring.
    apply Z.mul_le_mono_nonneg_r; lia.
  - replace (m2 * pow10 s1 * pow10 s3) with (m2 * pow10 s3 * pow10 s1) by ring.
    replace (m3 * pow10 s1 * pow10 s2) with (m3 * pow10 s2 * pow10 s1) by ring.
    apply Z.mul_le_mono_nonneg_r; lia.
Qed.

(** The sign of a difference: [y - x > 0] exactly when [x < y]. *)
Lemma sub_pos_ltb x y :
  isNaN x = false -> isNaN y = false -> ltb zero (sub y x) = ltb x y.
Proof.
  destruct x as [|a|m1 s1], y as [|b|m2 s2]; simpl; try discriminate;
    intros _ _.
  - destruct a, b; reflexivity.
  - destruct a; reflexivity.
  - destruct b; reflexivity.
  - change (ltb zero (add (Fin m2 s2) (Fin (- m1) s1))
            = (m1 * pow10 s2 <? m2 * pow10 s1)).
    rewrite add_Fin.
    destruct (norm_spec (m2 * pow10 s1 + - m1 * pow10 s2) (s2 + s1))
      as [u [su [E [V _]]]].
    rewrite E. simpl. unfold same_value in V.
    pose proof (pow10_pos su). pose proof (pow10_pos (s2 + s1)).
    change (pow10 0) with 1.
    destruct (Z.ltb_spec (m1 * pow10 s2) (m2 * pow10 s1));
      [apply Z.ltb_lt|apply Z.ltb_ge]; nia.
Qed.

Section TopCategory.
Context {K : Type}.
Let entry : Type := (K * number)%type.

Lemma sort_insert_nonempty (cmp : entry -> entry -> number) x l :
  sort_insert cmp x l <> [].
Proof. destruct l as [|y l]; simpl; [|destruct (after cmp x y)]; discriminate. Qed.

Lemma sort_head_first_max (l : list entry) :
  Forall (fun e => isNaN (snd e) = false) l ->
  match Array_sort by_amount_desc l with
  | [] => l = []
  | top :: _ => first_max top l
  end.
Proof.
  induction 1 as [|x l Hx Hl IH]; simpl; [reflexivity|].
  destruct (Array_sort by_amount_desc l) as [|h t] eqn:E; simpl.
  - subst l. exists [], []. repeat split; intros e [].
  - destruct IH as [pre [post [El [Hpre Hpost]]]].
    assert (Hh : isNaN (snd h) = false).
    { rewrite Forall_forall in Hl. apply Hl. rewrite El.
      apply in_or_app; right; now left. }
    unfold after, by_amount_desc. rewrite sub_pos_ltb by assumption.
    destruct (ltb (snd x) (snd h)) eqn:Hlt.
    + exists (x :: pre), post. repeat split.
      * now rewrite El.
      * intros e [<-|He]; auto.
      * exact Hpost.
    + apply ltb_false_leb in Hlt; auto.
      exists [], l. repeat split.
      * intros e [].
      * intros e He. apply leb_trans with (snd h); [|exact Hlt].
        rewrite El in He.
        apply in_app_or in He as [He|[<-|He]]; auto.
        -- now apply ltb_leb, Hpre.
        -- now apply leb_refl.
Qed.
End TopCategory.

(* ================================================================= *)
(** * The month list *)

Lemma str_ltb_asym a b : str_ltb a b = true -> str_ltb b a = false.
Proof.
  intros H. destruct (str_ltb b a) eqn:E; [|reflexivity].
  pose proof (str_ltb_trans _ _ _ H E) as C.
  now rewrite str_ltb_irrefl in C.
Qed.

Lemma str_mem_In x l : str_mem x l = true <-> In x l.
Proof.
  unfold str_mem. rewrite existsb_exists. split.
  - intros [y [Hy E]]. apply str_eqb_eq in E. now subst.
  - intros H. exists x. split; [exact H|apply str_eqb_refl].
Qed.

Lemma Set_fold_In l : forall acc x,
  In x (fold_left Set_add l acc) <-> In x acc \/ In x l.
Proof.
  induction l as [|y l IH]; intros acc x; simpl; [tauto|].
  rewrite IH. unfold Set_add. destruct (str_mem y acc) eqn:E.
  - apply str_mem_In in E. split; [tauto|].
    intros [H|[<-|H]]; auto.
  - rewrite in_app_iff; simpl. tauto.
Qed.

Lemma Set_fold_NoDup l : forall acc,
  NoDup acc -> NoDup (fold_left Set_add l acc).
Proof.
  induction l as [|y l IH]; intros acc H; simpl; [exact H|].
  apply IH. unfold Set_add. destruct (str_mem y acc) eqn:E; [exact H|].
  apply NoDup_rev in H. rewrite <- (rev_involutive (acc ++ [y])).
  apply NoDup_rev. rewrite rev_app_distr; simpl. constructor; [|exact H].
  rewrite <- in_rev. intros C. apply str_mem_In in C. congruence.
Qed.

Lemma Set_from_In l x : In x (Set_from l) <-> In x l.
Proof. unfold Set_from. rewrite Set_fold_In. simpl. tauto. Qed.

Lemma Set_from_NoDup l : NoDup (Set_from l).
Proof. apply Set_fold_NoDup. constructor. Qed.

Section SortPerm.
Context {A : Type} (cmp : A -> A -> number).

Lemma sort_insert_perm x l : Permutation (sort_insert cmp x l) (x :: l).
Proof.
  induction l as [|y l IH]; simpl; [reflexivity|].
  destruct (after cmp x y); [|reflexivity].
  rewrite IH. apply perm_swap.
Qed.

Lemma Array_sort_perm l : Permutation (Array_sort cmp l) l.
Proof.
  induction l as [|x l IH]; simpl; [reflexivity|].
  rewrite sort_insert_perm. now constructor.
Qed.
End SortPerm.

Lemma after_default x y :
  after default_compare x y = str_ltb y x.
Proof.
  unfold after, default_compare.
  destruct (str_ltb x y) eqn:E1.
  - rewrite (str_ltb_asym _ _ E1). reflexivity.
  - destruct (str_ltb y x); reflexivity.
Qed.

Lemma str_le_trans a b c : str_le a b -> str_le b c -> str_le a c.
Proof.
  unfold str_le. intros H1 H2.
  destruct (str_ltb c a) eqn:E; [exfalso|reflexivity].
  destruct (str_ltb a b) eqn:E3.
  - pose proof (str_ltb_trans _ _ _ E E3). congruence.
  - pose proof (str_ltb_total _ _ E3 H1). subst. congruence.
Qed.

Lemma sort_insert_sorted x l :
  StronglySorted str_le l ->
  StronglySorted str_le (sort_insert default_compare x l).
Proof.
  induction 1 as [|y l Hl IH Hy]; simpl.
  - repeat constructor.
  - rewrite after_default. destruct (str_ltb y x) eqn:E.
    + constructor; [exact IH|].
      rewrite Forall_forall in *. intros z Hz.
      apply (Permutation_in _ (sort_insert_perm default_compare x l)) in Hz.
      destruct Hz as [<-|Hz]; [|now apply Hy].
      now apply str_ltb_asym.
    + constructor; [now constructor|].
      constructor; [exact E|].
      rewrite Forall_forall in *. intros z Hz.
      apply str_le_trans with y; [exact E|now apply Hy].
Qed.

Lemma Array_sort_sorted l :
  StronglySorted str_le (Array_sort default_compare l).
Proof.
  induction l as [|x l IH]; simpl; [constructor|].
  now apply sort_insert_sorted.
Qed.

Lemma StronglySorted_snoc {A} (R : A -> A -> Prop) l x :
  StronglySorted R l -> Forall (fun y => R y x) l ->
  StronglySorted R (l ++ [x]).
Proof.
  induction 1 as [|y l Hl IH Hy]; intros F; simpl.
  - repeat constructor.
  - inversion F; subst. constructor; [now apply IH|].
    apply Forall_app; split; [exact Hy|now repeat constructor].
Qed.

Lemma StronglySorted_rev {A} (R : A -> A -> Prop) l :
  StronglySorted R l -> StronglySorted (fun a b => R b a) (rev l).
Proof.
  induction 1 as [|y l Hl IH Hy]; simpl; [constructor|].
  apply StronglySorted_snoc; [exact IH|].
  rewrite Forall_forall in *. intros z Hz. apply Hy. now apply in_rev.
Qed.

Lemma sorted_NoDup_strict l :
  StronglySorted str_le l -> NoDup l ->
  StronglySorted (fun a b => str_ltb a b = true) l.
Proof.
  induction 1 as [|y l Hl IH Hy]; intros N; [constructor|].
  inversion N as [|? ? Hn N']; subst.
  constructor; [now apply IH|].
  rewrite Forall_forall in *. intros z Hz.
  destruct (str_ltb y z) eqn:E; [reflexivity|exfalso].
  apply Hn. rewrite (str_ltb_total _ _ E (Hy z Hz)). exact Hz.
Qed.

(** C7.  [monthsAvailable] lists the month keys of all entries, each once, in
    strictly descending string order; for the empty collection it is the
    current month alone. *)
Theorem monthsAvailable_spec Date_local today st :
  let keys := monthsAvailable Date_local today st in
  StronglySorted (fun a b => str_ltb b a = true) keys
  /\ (forall e, In e (expenses st) ->
                In (monthKey Date_local (Expense.date e)) keys)
  /\ (forall k, In k keys ->
        (exists e, In e (expenses st)
                   /\ monthKey Date_local (Expense.date e) = k)
        \/ (expenses st = [] /\ k = monthKey Date_local today))
  /\ (expenses st = [] -> keys = [monthKey Date_local today]).
Proof.
  unfold monthsAvailable.
  set (ms := map (fun e => monthKey Date_local (Expense.date e)) (expenses st)).
  set (sorted := Array_sort default_compare (Set_from ms)).
  assert (HIn : forall k, In k (rev sorted) <-> In k ms).
  { intros k. rewrite <- in_rev. unfold sorted. split; intros H.
    - apply Set_from_In.
      eapply Permutation_in; [apply Array_sort_perm|exact H].
    - eapply Permutation_in; [symmetry; apply Array_sort_perm|].
      now apply Set_from_In. }
  assert (HS : StronglySorted (fun a b => str_ltb b a = true) (rev sorted)).
  { apply StronglySorted_rev with (R := fun a b => str_ltb a b = true).
    apply sorted_NoDup_strict; [apply Array_sort_sorted|].
    eapply Permutation_NoDup; [symmetry; apply Array_sort_perm|].
    apply Set_from_NoDup. }
  destruct (rev sorted) as [|k0 ks] eqn:E; simpl.
  - assert (Hms : ms = []).
    { destruct ms as [|m ms']; [reflexivity|].
      exfalso. apply (HIn m). now left. }
    assert (He : expenses st = []).
    { unfold ms in Hms. now apply map_eq_nil in Hms. }
    repeat split.
    + repeat constructor.
    + intros e H. rewrite He in H. destruct H.
    + intros k [<-|[]]. now right.
  - repeat split.
    + exact HS.
    + intros e H. apply HIn. unfold ms. now apply in_map with (f := fun e => monthKey Date_local (Expense.date e)).
    + intros k H. left. apply HIn in H. unfold ms in H.
      apply in_map_iff in H as [e [H1 H2]]. now exists e.
    + intros He. exfalso. assert (In k0 ms) by (apply HIn; now left).
      unfold ms in H. rewrite He in H. destruct H.
Qed.

(* ================================================================= *)
(** * JSON: strings *)

Lemma hex_value_char d : 0 <= d < 16 -> hex_value (hex_char d) = Some d.
Proof.
  intros H. unfold hex_char, hex_value.
  destruct (Z.ltb_spec d 10).
  - replace ((48 <=? d + 48) && (d + 48 <=? 57)) with true
      by (symmetry; apply andb_true_intro; split; apply Z.leb_le; lia).
    f_equal; lia.
  - replace ((48 <=? d + 87) && (d + 87 <=? 57)) with false
      by (symmetry; apply andb_false_intro2; apply Z.leb_gt; lia).
    replace ((97 <=? d + 87) && (d + 87 <=? 102)) with true
      by (symmetry; apply andb_true_intro; split; apply Z.leb_le; lia).
    f_equal; lia.
Qed.

Lemma hex4_escape c :
  wf_char c ->
  hex4 (hex_char (c / 4096)) (hex_char (c / 256 mod 16))
       (hex_char (c / 16 mod 16)) (hex_char (c mod 16)) = Some c.
Proof.
  unfold wf_char, hex4. intros H.
  rewrite !hex_value_char.
  - f_equal. Z.div_mod_to_equations. lia.
  - apply Z.mod_pos_bound; lia.
  - apply Z.mod_pos_bound; lia.
  - apply Z.mod_pos_bound; lia.
  - split; [apply Z.div_pos; lia|apply Z.div_lt_upper_bound; lia].
Qed.

Lemma parse_UnicodeEscape c rest acc :
  wf_char c ->
  parse_string_body (UnicodeEscape c ++ rest) acc
  = parse_string_body rest (c :: acc).
Proof.
  intros H. unfold UnicodeEscape. cbn [app parse_string_body].
  change (92 =? 34) with false. change (92 =? 92) with true.
  change (117 =? 117) with true. cbv iota.
  now rewrite hex4_escape.
Qed.

Ltac eqb_case c k :=
  destruct (Z.eqb_spec c k) as [->|?]; [reflexivity|].

Lemma parse_quote_char c rest acc :
  wf_char c ->
  parse_string_body (quote_char c ++ rest) acc
  = parse_string_body rest (c :: acc).
Proof.
  intros H. unfold quote_char.
  eqb_case c 8. eqb_case c 9. eqb_case c 10. eqb_case c 12. eqb_case c 13.
  eqb_case c 34. eqb_case c 92.
  destruct ((c <? 32) || is_high_surrogate c || is_low_surrogate c) eqn:E.
  - now apply parse_UnicodeEscape.
  - apply orb_false_elim in E as [E _]. apply orb_false_elim in E as [E _].
    cbn [app parse_string_body].
    destruct (Z.eqb_spec c 34); [lia|]. destruct (Z.eqb_spec c 92); [lia|].
    now rewrite E.
Qed.

Lemma parse_surrogate_pair c c2 rest acc :
  is_high_surrogate c && is_low_surrogate c2 = true ->
  parse_string_body (c :: c2 :: rest) acc
  = parse_string_body rest (c2 :: c :: acc).
Proof.
  unfold is_high_surrogate, is_low_surrogate. intros H.
  rewrite !andb_true_iff, !Z.leb_le in H.
  cbn [parse_string_body].
  destruct (Z.eqb_spec c 34); [lia|]. destruct (Z.eqb_spec c 92); [lia|].
  destruct (Z.ltb_spec c 32); [lia|].
  destruct (Z.eqb_spec c2 34); [lia|]. destruct (Z.eqb_spec c2 92); [lia|].
  destruct (Z.ltb_spec c2 32); [lia|]. reflexivity.
Qed.

Lemma parse_quote_body_len n : forall s rest acc,
  (List.length s <= n)%nat -> wf_string s ->
  parse_string_body (quote_body s ++ 34 :: rest) acc
  = Some (rev acc ++ s, rest).
Proof.
  induction n as [|n IH]; intros s rest acc L W.
  - destruct s; [|simpl in L; lia]. simpl. now rewrite app_nil_r.
  - destruct s as [|c r]; [simpl; now rewrite app_nil_r|].
    inversion W as [|? ? Wc Wr]; subst.
    cbn [quote_body]. destruct r as [|c2 r2].
    + rewrite parse_quote_char by assumption. simpl. reflexivity.
    + destruct (is_high_surrogate c && is_low_surrogate c2) eqn:E.
      * cbn [app]. rewrite parse_surrogate_pair by assumption.
        inversion Wr; subst. rewrite IH by (simpl in *; auto; lia).
        simpl. now rewrite <- !app_assoc.
      * rewrite <- app_assoc, parse_quote_char by assumption.
        rewrite IH by (simpl in *; auto; lia).
        simpl. now rewrite <- app_assoc.
Qed.

Lemma parse_QuoteJSONString s rest :
  wf_string s ->
  parse_string_body (quote_body s ++ 34 :: rest) [] = Some (s, rest).
Proof. intros W. now rewrite (parse_quote_body_len (List.length s)). Qed.

(* ================================================================= *)
(** * JSON: digits *)


Lemma fold_digits_acc ds : forall a,
  fold_left (fun a d => 10 * a + d) ds a
  = a * 10 ^ Z.of_nat (List.length ds) + digits_value ds.
Proof.
  unfold digits_value.
  induction ds as [|d ds IH]; intros a.
  - simpl. lia.
  - cbn [fold_left List.length]. rewrite IH, (IH (10 * 0 + d)).
    rewrite Nat2Z.inj_succ, Z.pow_succ_r by lia. ring.
Qed.

Lemma digits_value_app l1 l2 :
  digits_value (l1 ++ l2)
  = digits_value l1 * 10 ^ Z.of_nat (List.length l2) + digits_value l2.
Proof.
  unfold digits_value at 1. rewrite fold_left_app.
  now rewrite fold_digits_acc.
Qed.

Lemma digits_value_zeros j : digits_value (repeat 0 j) = 0.
Proof.
  induction j as [|j IH]; [reflexivity|].
  change (repeat 0 (S j)) with ([0] ++ repeat 0 j).
  rewrite digits_value_app, IH. reflexivity.
Qed.

Lemma digits_fuel_spec fuel : forall n acc,
  0 <= n < 2 ^ Z.of_nat fuel ->
  Forall is_digit_value acc ->
  let r := digits_fuel fuel n acc in
  digits_value r = n * 10 ^ Z.of_nat (List.length acc) + digits_value acc
  /\ Forall is_digit_value r
  /\ (0 < n -> exists d t, r = d :: t /\ d <> 0).
Proof.
  induction fuel as [|f IH]; intros n acc Hn Ha.
  - simpl in *. assert (n = 0) by lia. subst. repeat split; auto; lia.
  - cbn [digits_fuel]. destruct (Z.ltb_spec n 10) as [L|L].
    + repeat split.
      * change (n :: acc) with ([n] ++ acc). rewrite digits_value_app.
        unfold digits_value at 1; simpl. lia.
      * constructor; [unfold is_digit_value; lia|exact Ha].
      * intros P. exists n, acc. split; [reflexivity|lia].
    + rewrite Nat2Z.inj_succ, Z.pow_succ_r in Hn by lia.
      assert (Hq : 0 <= n / 10 < 2 ^ Z.of_nat f).
      { split; [apply Z.div_pos; lia|].
        apply Z.div_lt_upper_bound; lia. }
      assert (Hm : 0 <= n mod 10 < 10) by (apply Z.mod_pos_bound; lia).
      destruct (IH (n / 10) (n mod 10 :: acc) Hq) as [V [R H0]].
      { constructor; [unfold is_digit_value; lia|exact Ha]. }
      repeat split.
      * rewrite V. change (n mod 10 :: acc) with ([n mod 10] ++ acc).
        rewrite digits_value_app. cbn [List.length app].
        rewrite Nat2Z.inj_succ, Z.pow_succ_r by lia.
        unfold digits_value at 1; simpl fold_left.
        pose proof (Z.div_mod n 10 ltac:(lia)). nia.
      * exact R.
      * intros _. apply H0. apply Z.div_str_pos. lia.
Qed.

Lemma digits_spec n :
  0 <= n ->
  digits_value (digits n) = n
  /\ Forall is_digit_value (digits n)
  /\ (0 < n -> exists d t, digits n = d :: t /\ d <> 0).
Proof.
  intros H. unfold digits.
  destruct (digits_fuel_spec (S (Z.to_nat (Z.log2 n))) n []) as [V [R H0]].
  - split; [exact H|].
    destruct (Z.eq_dec n 0) as [->|N]; [now vm_compute|].
    rewrite Nat2Z.inj_succ, Z2Nat.id by apply Z.log2_nonneg.
    apply Z.log2_spec. lia.
  - constructor.
  - repeat split; auto. rewrite V. unfold digits_value.
    cbn [fold_left List.length]. change (10 ^ Z.of_nat 0) with 1. lia.
Qed.

Lemma is_digit_char d : is_digit_value d -> is_digit (d + 48) = true.
Proof.
  unfold is_digit_value, is_digit. intros H.
  apply andb_true_intro; split; apply Z.leb_le; lia.
Qed.

Lemma span_digits_chars ds rest :
  Forall is_digit_value ds -> no_digit_ahead rest ->
  span_digits (digit_chars ds ++ rest) = (ds, rest).
Proof.
  intros H N. induction H as [|d ds Hd Hds IH]; cbn [digit_chars map app].
  - destruct rest as [|c r]; [reflexivity|]. simpl in *. now rewrite N.
  - cbn [span_digits]. rewrite is_digit_char by assumption.
    fold (digit_chars ds). rewrite IH. f_equal. f_equal. lia.
Qed.

Lemma drop_zeros_spec l :
  exists z, l = repeat 0 z ++ drop_zeros l
            /\ match drop_zeros l with d :: _ => d <> 0 | [] => True end.
Proof.
  induction l as [|d l [z [E H]]]; simpl.
  - now exists O.
  - destruct (Z.eqb_spec d 0) as [->|N].
    + exists (S z). simpl. split; [now f_equal|exact H].
    + exists O. split; [reflexivity|exact N].
Qed.

Lemma repeat_rev {A} (x : A) n : rev (repeat x n) = repeat x n.
Proof.
  induction n as [|n IH]; [reflexivity|].
  simpl. rewrite IH. now rewrite <- repeat_cons.
Qed.

(** Stripping trailing zeros of a digit list that starts with a non-zero
    digit: some zeros go, the first digit stays. *)
Lemma strip_trailing_zeros_spec d t :
  d <> 0 ->
  exists z t',
    d :: t = strip_trailing_zeros (d :: t) ++ repeat 0 z
    /\ strip_trailing_zeros (d :: t) = d :: t'.
Proof.
  intros Hd. unfold strip_trailing_zeros.
  destruct (drop_zeros_spec (rev (d :: t))) as [z [E H]].
  assert (E' : d :: t = rev (drop_zeros (rev (d :: t))) ++ repeat 0 z).
  { rewrite <- (rev_involutive (d :: t)) at 1. rewrite E at 1.
    now rewrite rev_app_distr, repeat_rev. }
  exists z.
  destruct (rev (drop_zeros (rev (d :: t)))) as [|d' t'] eqn:R.
  - exfalso. simpl in E'. destruct z; simpl in E'; [discriminate|].
    inversion E'. congruence.
  - exists t'. split; [exact E'|]. simpl in E'. inversion E'. reflexivity.
Qed.

Lemma Forall_app_l {A} (P : A -> Prop) l1 l2 :
  Forall P (l1 ++ l2) -> Forall P l1.
Proof. intros H. now apply Forall_app in H as [H _]. Qed.

Lemma digits_fuel_nonempty f : forall q acc,
  acc <> [] -> digits_fuel f q acc <> [].
Proof.
  induction f as [|f IH]; intros q acc Ha; simpl; [exact Ha|].
  destruct (q <? 10); [discriminate|]. apply IH. discriminate.
Qed.

Lemma digits_nonempty n : is_nil (digits n) = false.
Proof.
  unfold digits. cbn [digits_fuel].
  destruct (n <? 10); [reflexivity|].
  destruct (digits_fuel _ _ _) eqn:E; [|reflexivity].
  exfalso. revert E. apply digits_fuel_nonempty. discriminate.
Qed.

(* ================================================================= *)
(** * JSON: numbers *)

Lemma pow10_Z n : pow10 n = 10 ^ Z.of_nat n.
Proof. reflexivity. Qed.

Lemma scale10_eq A e m s0 :
  canon (Fin m s0) ->
  A * 10 ^ Z.max e 0 * pow10 s0 = m * 10 ^ Z.max (- e) 0 ->
  scale10 A e = Fin m s0.
Proof.
  intros C H. rewrite <- (norm_canon m s0 C). unfold scale10.
  destruct (Z.leb_spec 0 e) as [L|L].
  - change (Fin (A * 10 ^ e) 0) with (norm (A * 10 ^ e) 0).
    apply norm_eq. unfold same_value.
    rewrite Z.max_l in H by lia. rewrite Z.max_r in H by lia.
    rewrite H. unfold pow10. simpl. ring.
  - apply norm_eq. unfold same_value.
    rewrite Z.max_r in H by lia. rewrite Z.max_l in H by lia.
    unfold pow10 in *. rewrite Z2Nat.id by lia. rewrite <- H. simpl. ring.
Qed.

(** The value [S * 10^z / 10^s0] read back with the exponent [z - s0]. *)
Lemma scale10_digits S z m s0 e :
  canon (Fin m s0) ->
  m = S * 10 ^ Z.of_nat z ->
  e = Z.of_nat z - Z.of_nat s0 ->
  scale10 S e = Fin m s0.
Proof.
  intros C -> ->. apply scale10_eq; [exact C|]. rewrite pow10_Z.
  destruct (Z.le_ge_cases (Z.of_nat s0) (Z.of_nat z)) as [L|L].
  - rewrite Z.max_l, Z.max_r by lia.
    rewrite <- Z.mul_assoc, <- Z.pow_add_r by lia.
    replace (Z.of_nat z - Z.of_nat s0 + Z.of_nat s0) with (Z.of_nat z) by lia.
    simpl. ring.
  - rewrite Z.max_r, Z.max_l by lia.
    rewrite <- (Z.mul_assoc S (10 ^ Z.of_nat z)), <- Z.pow_add_r by lia.
    replace (Z.of_nat z + - (Z.of_nat z - Z.of_nat s0)) with (Z.of_nat s0) by lia.
    simpl. ring.
Qed.

Lemma number_end_no_digit s : number_end s -> no_digit_ahead s.
Proof. destruct s; simpl; tauto. Qed.

Lemma json_fraction_none r :
  match r with c :: _ => c <> 46 | [] => True end ->
  json_fraction r = Some ([], r).
Proof.
  destruct r as [|c r]; simpl; [reflexivity|].
  intros H. now destruct (Z.eqb_spec c 46).
Qed.

Lemma json_fraction_some fp r :
  fp <> [] -> Forall is_digit_value fp -> no_digit_ahead r ->
  json_fraction (46 :: digit_chars fp ++ r) = Some (fp, r).
Proof.
  intros N F H. unfold json_fraction. change (46 =? 46) with true. cbv iota.
  rewrite span_digits_chars by assumption.
  destruct fp; [congruence|reflexivity].
Qed.

Lemma json_exponent_none r :
  match r with c :: _ => c <> 101 /\ c <> 69 | [] => True end ->
  json_exponent r = Some (0, r).
Proof.
  destruct r as [|c r]; simpl; [reflexivity|].
  intros [H1 H2].
  destruct (Z.eqb_spec c 101); [lia|]. now destruct (Z.eqb_spec c 69).
Qed.

Lemma json_exponent_some e rest :
  no_digit_ahead rest ->
  json_exponent ([101] ++ (if e <? 0 then [45] else [43])
                 ++ digit_chars (digits (Z.abs e)) ++ rest)
  = Some (e, rest).
Proof.
  intros H.
  destruct (digits_spec (Z.abs e) (Z.abs_nonneg e)) as [V [R _]].
  pose proof (digits_nonempty (Z.abs e)) as N.
  unfold json_exponent. cbn [app]. change ((101 =? 101) || (101 =? 69)) with true.
  cbv iota.
  destruct (Z.ltb_spec e 0) as [L|L]; cbn [app].
  - change (45 =? 45) with true. cbv iota.
    rewrite span_digits_chars by assumption. rewrite N, V. f_equal. f_equal. lia.
  - change (43 =? 45) with false. change (43 =? 43) with true. cbv iota.
    rewrite span_digits_chars by assumption. rewrite N, V. f_equal. f_equal. lia.
Qed.

Lemma parse_number_compose s d ip' r1 fp r2 e r3 :
  match s with c :: _ => c <> 45 | [] => True end ->
  span_digits s = (d :: ip', r1) ->
  d <> 0 \/ ip' = [] ->
  json_fraction r1 = Some (fp, r2) ->
  json_exponent r2 = Some (e, r3) ->
  parse_number s
  = Some (scale10 (digits_value ((d :: ip') ++ fp))
                  (e - Z.of_nat (List.length fp)), r3).
Proof.
  intros H0 Hs Hd Hf He. unfold parse_number.
  destruct s as [|c r]; [discriminate Hs|].
  destruct (Z.eqb_spec c 45) as [?|_]; [contradiction|].
  rewrite Hs.
  assert (Z0 : (d =? 0) && negb (is_nil ip') = false).
  { destruct Hd as [Hd| ->]; [|apply andb_false_r].
    now destruct (Z.eqb_spec d 0). }
  now rewrite Z0, Hf, He.
Qed.

Lemma digit_chars_app a b :
  digit_chars (a ++ b) = digit_chars a ++ digit_chars b.
Proof. apply map_app. Qed.

Lemma digit_chars_zeros j : digit_chars (repeat 0 j) = repeat 48 j.
Proof. induction j; simpl; [reflexivity|]. now f_equal. Qed.

Lemma Forall_zeros j : Forall is_digit_value (repeat 0 j).
Proof. induction j; simpl; constructor; auto. unfold is_digit_value; lia. Qed.

Lemma digit_head_not_minus d t rest :
  is_digit_value d ->
  match digit_chars (d :: t) ++ rest with c :: _ => c <> 45 | [] => True end.
Proof. unfold is_digit_value. simpl. lia. Qed.

Lemma parse_Number_toString_pos m s0 rest :
  0 < m -> canon (Fin m s0) -> number_end rest ->
  parse_number (Number_toString_pos m s0 ++ rest) = Some (Fin m s0, rest).
Proof.
  intros Hm C Hend.
  pose proof (number_end_no_digit _ Hend) as Hnd.
  destruct (digits_spec m) as [V [R H0]]; [lia|].
  destruct (H0 Hm) as [d [t [Ed Hd]]].
  destruct (strip_trailing_zeros_spec d t Hd) as [z [t' [Ez Es]]].
  unfold Number_toString_pos. rewrite Ed, Es.
  set (ds := d :: t') in *.
  assert (Rds : Forall is_digit_value ds).
  { rewrite Ed, Ez, Es in R. now apply Forall_app_l in R. }
  assert (Rd : is_digit_value d) by now inversion Rds.
  assert (Rt' : Forall is_digit_value t') by now inversion Rds.
  assert (Hlen : List.length (d :: t) = (List.length ds + z)%nat).
  { rewrite Ez, Es. now rewrite length_app, repeat_length. }
  assert (Hval : m = digits_value ds * 10 ^ Z.of_nat z).
  { rewrite <- V, Ed, Ez, Es, digits_value_app, digits_value_zeros.
    rewrite repeat_length. fold ds. lia. }
  rewrite Hlen.
  set (k := List.length ds) in *.
  set (n := Z.of_nat (k + z) - Z.of_nat s0).
  assert (Hk : (1 <= k)%nat) by (unfold k, ds; simpl; lia).
  destruct ((n <? -5) || (21 <? n)) eqn:Eexp.
  - (* exponent notation *)
    unfold ds. rewrite <- !app_assoc. destruct t' as [|d2 t2]; cbn [app].
    + erewrite parse_number_compose
        with (d := d) (ip' := []) (fp := []) (e := n - 1) (r3 := rest).
      * f_equal. f_equal. cbn [app].
        apply scale10_digits with z; [exact C|exact Hval|].
        unfold n, k, ds. simpl List.length. lia.
      * simpl. unfold is_digit_value in Rd. lia.
      * apply (span_digits_chars [d]); [assumption|reflexivity].
      * now right.
      * now apply json_fraction_none.
      * apply json_exponent_some. exact Hnd.
    + erewrite parse_number_compose
        with (d := d) (ip' := []) (fp := d2 :: t2) (e := n - 1) (r3 := rest).
      * f_equal. f_equal. cbn [app].
        apply scale10_digits with z; [exact C|exact Hval|].
        unfold n, k, ds. simpl List.length. lia.
      * simpl. unfold is_digit_value in Rd. lia.
      * apply (span_digits_chars [d]); [|reflexivity].
        constructor; [exact Rd|constructor].
      * now right.
      * apply json_fraction_some; [discriminate|assumption|reflexivity].
      * apply json_exponent_some. exact Hnd.
  - apply orb_false_elim in Eexp as [E1 E2].
    apply Z.ltb_ge in E1, E2.
    destruct (Z.ltb_spec 0 n) as [Pn|Pn].
    + destruct (Z.leb_spec (Z.of_nat k) n) as [Lk|Lk].
      * (* digits and zeros *)
        assert (Hz : (s0 <= z)%nat) by (unfold n in Lk; lia).
        assert (Hs0 : s0 = O).
        { destruct C as [C|C]; [exact C|]. destruct z as [|z']; [lia|].
          exfalso. apply C. rewrite Hval, Nat2Z.inj_succ, Z.pow_succ_r by lia.
          replace (digits_value ds * (10 * 10 ^ Z.of_nat z'))
            with (digits_value ds * 10 ^ Z.of_nat z' * 10) by ring.
          apply Z.mod_mul. lia. }
        subst s0.
        replace (Z.to_nat n - k)%nat with z by (unfold n; lia).
        rewrite <- digit_chars_zeros, <- digit_chars_app.
        unfold ds at 1. cbn [app].
        erewrite parse_number_compose
          with (d := d) (ip' := t' ++ repeat 0 z) (fp := []) (e := 0)
               (r3 := rest).
        -- f_equal. f_equal. rewrite app_nil_r. cbn [List.length].
           change (d :: t' ++ repeat 0 z) with (ds ++ repeat 0 z).
           rewrite digits_value_app, digits_value_zeros, repeat_length.
           unfold scale10. change (0 - Z.of_nat 0) with 0.
           change (0 <=? 0) with true. cbv iota.
           f_equal. rewrite Hval. change (10 ^ 0) with 1. lia.
        -- now apply digit_head_not_minus.
        -- apply (span_digits_chars (d :: t' ++ repeat 0 z)); [|exact Hnd].
           constructor; [exact Rd|].
           apply Forall_app; split; [exact Rt'|apply Forall_zeros].
        -- now left.
        -- apply json_fraction_none. destruct rest; simpl in *; tauto.
        -- apply json_exponent_none. destruct rest; simpl in *; tauto.
      * (* digits around a point *)
        assert (Hn : (Z.to_nat n < k)%nat) by lia.
        assert (Hn0 : (0 < Z.to_nat n)%nat) by lia.
        destruct (Z.to_nat n) as [|j] eqn:Ej; [lia|].
        unfold ds. cbn [firstn skipn].
        rewrite <- !app_assoc.
        assert (Hfs : Forall is_digit_value (firstn j t')
                      /\ Forall is_digit_value (skipn j t'))
          by (apply Forall_app; now rewrite firstn_skipn).
        destruct Hfs as [Hfi Hsi].
        assert (Hsk : skipn j t' <> []).
        { intros E. apply (f_equal (@List.length Z)) in E.
          rewrite length_skipn in E. unfold k, ds in Hn. simpl in *. lia. }
        erewrite parse_number_compose
          with (d := d) (ip' := firstn j t') (fp := skipn j t') (e := 0)
               (r3 := rest).
        -- f_equal. f_equal. cbn [app]. rewrite firstn_skipn.
           apply scale10_digits with z; auto.
           rewrite length_skipn. unfold n, k, ds in *. simpl List.length in *. lia.
        -- now apply digit_head_not_minus.
        -- apply (span_digits_chars (d :: firstn j t')).
           ++ constructor; [exact Rd|exact Hfi].
           ++ simpl. reflexivity.
        -- now left.
        -- cbn [app]. apply json_fraction_some; auto.
        -- apply json_exponent_none. destruct rest; simpl in *; tauto.
    + (* zero, point, zeros, digits *)
      cbn [app]. rewrite <- digit_chars_zeros, <- digit_chars_app.
      erewrite parse_number_compose
        with (d := 0) (ip' := []) (fp := repeat 0 (Z.to_nat (- n)) ++ ds)
             (e := 0) (r3 := rest).
      * f_equal. f_equal. cbn [app].
        change (0 :: repeat 0 (Z.to_nat (- n)) ++ ds)
          with (repeat 0 (S (Z.to_nat (- n))) ++ ds).
        rewrite digits_value_app, digits_value_zeros.
        rewrite Z.mul_0_l, Z.add_0_l.
        apply scale10_digits with z; auto.
        rewrite length_app, repeat_length. unfold n in *. fold k. lia.
      * simpl. lia.
      * change (48 :: 46 :: ?x) with (digit_chars [0] ++ 46 :: x).
        apply span_digits_chars; [|reflexivity].
        constructor; [unfold is_digit_value; lia|constructor].
      * now right.
      * apply json_fraction_some.
        -- unfold ds. destruct (repeat 0 (Z.to_nat (- n))); discriminate.
        -- apply Forall_app; split; [apply Forall_zeros|exact Rds].
        -- exact Hnd.
      * apply json_exponent_none. destruct rest; simpl in *; tauto.
Qed.

Lemma parse_number_minus s :
  match s with c :: _ => c <> 45 | [] => True end ->
  parse_number (45 :: s)
  = match parse_number s with
    | Some (v, r) => Some (neg v, r)
    | None => None
    end.
Proof.
  intros H. unfold parse_number. change (45 =? 45) with true. cbv iota.
  destruct s as [|c r].
  - reflexivity.
  - destruct (Z.eqb_spec c 45) as [?|_]; [contradiction|].
    destruct (span_digits (c :: r)) as [[|d ip'] r1]; [reflexivity|].
    destruct ((d =? 0) && negb (is_nil ip')); [reflexivity|].
    destruct (json_fraction r1) as [[fp r2]|]; [|reflexivity].
    destruct (json_exponent r2) as [[e r3]|]; reflexivity.
Qed.

Lemma parse_number_head s p :
  parse_number s = Some p ->
  match s with c :: _ => c = 45 \/ is_digit c = true | [] => False end.
Proof.
  destruct s as [|c r]; unfold parse_number; [discriminate|].
  destruct (Z.eqb_spec c 45) as [->|N]; [now left|].
  cbn [span_digits]. destruct (is_digit c); [now right|discriminate].
Qed.

Lemma canon_opp m s : canon (Fin m s) -> canon (Fin (- m) s).
Proof.
  simpl. intros [C|C]; [now left|right].
  intros E. apply C. clear C. Z.div_mod_to_equations. lia.
Qed.

Lemma Number_toString_pos_head m s0 :
  0 < m ->
  exists c r, Number_toString_pos m s0 = c :: r /\ is_digit c = true.
Proof.
  intros Hm.
  destruct (digits_spec m) as [V [R H0]]; [lia|].
  destruct (H0 Hm) as [d [t [Ed Hd]]].
  destruct (strip_trailing_zeros_spec d t Hd) as [z [t' [Ez Es]]].
  assert (Rd : is_digit (d + 48) = true).
  { apply is_digit_char. rewrite Ed in R. now inversion R. }
  unfold Number_toString_pos. rewrite Ed, Es.
  set (n := Z.of_nat (List.length (d :: t)) - Z.of_nat s0).
  destruct ((n <? -5) || (21 <? n)).
  - cbn [digit_chars map app]. eauto.
  - destruct (Z.ltb_spec 0 n) as [Pn|Pn].
    + destruct (Z.of_nat (List.length (d :: t')) <=? n).
      * cbn [digit_chars map app]. eauto.
      * destruct (Z.to_nat n) as [|j] eqn:Ej; [lia|].
        cbn [firstn digit_chars map app]. eauto.
    + cbn [app]. eexists _, _. split; reflexivity.
Qed.

(** Reading back a printed finite number. *)
Lemma parse_Number_toString x rest :
  isFinite x = true -> canon x -> number_end rest ->
  parse_number (Number_toString x ++ rest) = Some (x, rest).
Proof.
  destruct x as [| b | m s]; try discriminate. intros _ C He.
  unfold Number_toString.
  destruct (Z.eqb_spec m 0) as [->|N].
  - assert (s = O) by (destruct C as [C|C]; [exact C|now elim C]). subst s.
    erewrite parse_number_compose
      with (d := 0) (ip' := []) (fp := []) (e := 0) (r3 := rest).
    + reflexivity.
    + simpl. lia.
    + apply (span_digits_chars [0]).
      * constructor; [unfold is_digit_value; lia|constructor].
      * now apply number_end_no_digit.
    + now right.
    + apply json_fraction_none. destruct rest; simpl in *; tauto.
    + apply json_exponent_none. destruct rest; simpl in *; tauto.
  - destruct (Z.ltb_spec m 0) as [L|L].
    + cbn [app]. rewrite parse_number_minus.
      * rewrite parse_Number_toString_pos; auto; [|lia|now apply canon_opp].
        simpl. now rewrite Z.opp_involutive.
      * destruct (Number_toString_pos_head (- m) s ltac:(lia))
          as [c [r [E D]]].
        rewrite E. cbn [app]. intros ->. discriminate D.
    + apply parse_Number_toString_pos; auto. lia.
Qed.

Lemma parse_value_number f s x r :
  parse_number s = Some (x, r) ->
  parse_value (S f) s = Some (VNum x, r).
Proof.
  intros P. pose proof (parse_number_head _ _ P) as H.
  destruct s as [|c s']; [contradiction|].
  assert (Hc : c = 45 \/ 48 <= c <= 57).
  { destruct H as [H|H]; [now left|right].
    unfold is_digit in H. apply andb_prop in H as [H1 H2].
    apply Z.leb_le in H1, H2. lia. }
  cbn [parse_value skip_ws].
  assert (W : is_json_ws c = false).
  { unfold is_json_ws.
    destruct (Z.eqb_spec c 9); [lia|]. destruct (Z.eqb_spec c 10); [lia|].
    destruct (Z.eqb_spec c 13); [lia|]. destruct (Z.eqb_spec c 32); [lia|].
    reflexivity. }
  rewrite W.
  destruct (Z.eqb_spec c 123); [lia|]. destruct (Z.eqb_spec c 91); [lia|].
  destruct (Z.eqb_spec c 34); [lia|].
  assert (T : forall p, starts_with (lit "true") (c :: p) = false
                        /\ starts_with (lit "false") (c :: p) = false
                        /\ starts_with (lit "null") (c :: p) = false).
  { intros p.
    change (lit "true") with (116 :: lit "rue").
    change (lit "false") with (102 :: lit "alse").
    change (lit "null") with (110 :: lit "ull").
    cbn [starts_with].
    destruct (Z.eqb_spec 116 c); [lia|]. destruct (Z.eqb_spec 102 c); [lia|].
    destruct (Z.eqb_spec 110 c); [lia|]. auto. }
  destruct (T s') as [T1 [T2 T3]]. rewrite T1, T2, T3, P. reflexivity.
Qed.

Lemma parse_value_string f s rest :
  wf_string s ->
  parse_value (S f) (QuoteJSONString s ++ rest) = Some (VStr s, rest).
Proof.
  intros W. unfold QuoteJSONString. rewrite <- !app_assoc.
  cbn [app parse_value skip_ws]. change (is_json_ws 34) with false. cbv iota.
  change (34 =? 123) with false. change (34 =? 91) with false.
  change (34 =? 34) with true. cbv iota.
  now rewrite parse_QuoteJSONString.
Qed.

(** One member of an object and what follows it. *)
Lemma parse_members_step f k vtext v c rest acc :
  wf_string k ->
  parse_value f (vtext ++ c :: rest) = Some (v, c :: rest) ->
  is_json_ws c = false ->
  parse_members (S f) (QuoteJSONString k ++ 58 :: vtext ++ c :: rest) acc
  = if c =? 44 then parse_members f rest (obj_set acc k v)
    else if c =? 125 then Some (obj_set acc k v, rest)
    else None.
Proof.
  intros W P Hc. unfold QuoteJSONString. rewrite <- !app_assoc.
  cbn [app parse_members skip_ws]. change (is_json_ws 34) with false.
  cbv iota. change (34 =? 34) with true. cbv iota.
  rewrite parse_QuoteJSONString by assumption.
  cbn [skip_ws]. change (is_json_ws 58) with false. cbv iota.
  change (58 =? 58) with true. cbv iota.
  rewrite P. cbn [skip_ws]. rewrite Hc. reflexivity.
Qed.

(* ================================================================= *)
(** * JSON: objects, arrays, the slot *)

Ltac wf_lit :=
  unfold wf_string, lit; simpl;
  repeat (constructor; [unfold wf_char; lia|]); constructor.

Lemma Expense_text e tail :
  isFinite (Expense.amount e) = true ->
  JSON_stringify (Expense_value e) ++ tail
  = 123 :: QuoteJSONString (lit "id") ++ 58 ::
      QuoteJSONString (Expense.id e) ++ 44 ::
      QuoteJSONString (lit "date") ++ 58 ::
      QuoteJSONString (Expense.date e) ++ 44 ::
      QuoteJSONString (lit "amount") ++ 58 ::
      Number_toString (Expense.amount e) ++ 44 ::
      QuoteJSONString (lit "category") ++ 58 ::
      QuoteJSONString (Expense.category e) ++ 44 ::
      QuoteJSONString (lit "note") ++ 58 ::
      QuoteJSONString (Expense.note e) ++ 125 :: tail.
Proof.
  intros H.
  cbn [JSON_stringify Expense_value map join fst snd].
  rewrite H.
  repeat (progress (rewrite <- ?app_assoc; cbn [app])).
  reflexivity.
Qed.

Lemma parse_value_object f k tail :
  parse_value (S f) (123 :: QuoteJSONString k ++ tail)
  = match parse_members f (QuoteJSONString k ++ tail) [] with
    | Some (o, r) => Some (VObj o, r)
    | None => None
    end.
Proof. reflexivity. Qed.

Lemma parse_value_array f tail :
  parse_value (S f) (91 :: 123 :: tail)
  = match parse_elements f (123 :: tail) [] with
    | Some (l, r) => Some (VArr l, r)
    | None => None
    end.
Proof. reflexivity. Qed.

Lemma parse_Expense f e c rest :
  wf_Expense e -> is_json_ws c = false ->
  parse_value (7 + f) (JSON_stringify (Expense_value e) ++ c :: rest)
  = Some (Expense_value e, c :: rest).
Proof.
  intros (Wi & Wd & Fa & Ca & Wc & Wn) Hc.
  rewrite Expense_text by assumption.
  change (7 + f)%nat with (S (S (S (S (S (S (S f))))))).
  rewrite parse_value_object.
  rewrite parse_members_step with (v := VStr (Expense.id e));
    [|wf_lit|now apply parse_value_string|reflexivity].
  change (44 =? 44) with true. cbv iota.
  rewrite parse_members_step with (v := VStr (Expense.date e));
    [|wf_lit|now apply parse_value_string|reflexivity].
  change (44 =? 44) with true. cbv iota.
  rewrite parse_members_step with (v := VNum (Expense.amount e));
    [|wf_lit| |reflexivity].
  2:{ apply parse_value_number. apply parse_Number_toString; auto.
      simpl. repeat split; lia. }
  change (44 =? 44) with true. cbv iota.
  rewrite parse_members_step with (v := VStr (Expense.category e));
    [|wf_lit|now apply parse_value_string|reflexivity].
  change (44 =? 44) with true. cbv iota.
  rewrite parse_members_step with (v := VStr (Expense.note e));
    [|wf_lit|now apply parse_value_string|reflexivity].
  reflexivity.
Qed.

Lemma parse_elements_Expenses l : forall e f acc rest,
  Forall wf_Expense (e :: l) ->
  parse_elements (8 + List.length l + f)
    (join [44] (map Expense_text_of (e :: l)) ++ 93 :: rest) acc
  = Some (rev acc ++ map Expense_value (e :: l), rest).
Proof.
  induction l as [|e2 l IH]; intros e f acc rest W;
    inversion W as [|? ? We Wl]; subst.
  - cbn [map join List.length]. unfold Expense_text_of.
    change (8 + 0 + f)%nat with (S (7 + f)). cbn [parse_elements].
    rewrite parse_Expense by (auto; reflexivity).
    cbn [skip_ws]. change (is_json_ws 93) with false. cbv iota.
    change (93 =? 44) with false. change (93 =? 93) with true. cbv iota.
    reflexivity.
  - change (map Expense_text_of (e :: e2 :: l))
      with (Expense_text_of e :: map Expense_text_of (e2 :: l)).
    change (join [44] (Expense_text_of e :: map Expense_text_of (e2 :: l)))
      with (Expense_text_of e ++ [44]
            ++ join [44] (map Expense_text_of (e2 :: l))).
    rewrite <- !app_assoc. cbn [app].
    replace (8 + List.length (e2 :: l) + f)%nat
      with (S (7 + (S (List.length l + f)))) by (simpl; lia).
    cbn [parse_elements]. unfold Expense_text_of at 1.
    rewrite parse_Expense by (auto; reflexivity).
    cbn [skip_ws]. change (is_json_ws 44) with false. cbv iota.
    change (44 =? 44) with true. cbv iota.
    replace (7 + S (List.length l + f))%nat
      with (8 + List.length l + f)%nat by lia.
    rewrite IH by assumption.
    cbn [rev map]. now rewrite <- app_assoc.
Qed.

Lemma expenses_text c :
  JSON_stringify (expenses_value c)
  = 91 :: join [44] (map Expense_text_of c) ++ [93].
Proof.
  unfold expenses_value. cbn [JSON_stringify]. now rewrite map_map.
Qed.

Lemma parse_expenses c f rest :
  Forall wf_Expense c ->
  parse_value (9 + List.length c + f)
    (JSON_stringify (expenses_value c) ++ rest)
  = Some (expenses_value c, rest).
Proof.
  intros W. rewrite expenses_text. cbn [app]. rewrite <- app_assoc. cbn [app].
  destruct c as [|e l].
  - reflexivity.
  - assert (H : exists T,
      join [44] (map Expense_text_of (e :: l)) ++ 93 :: rest = 123 :: T).
    { inversion W as [|? ? We _]; subst. destruct We as (_ & _ & Fa & _).
      cbn [map]. unfold Expense_text_of at 1.
      destruct (map Expense_text_of l) as [|y ys]; cbn [join];
        rewrite <- ?app_assoc; rewrite Expense_text by assumption; eauto. }
    destruct H as [T H]. rewrite H.
    change (9 + List.length (e :: l) + f)%nat
      with (S (8 + List.length (e :: l) + f)).
    rewrite parse_value_array, <- H.
    replace (8 + List.length (e :: l) + f)%nat
      with (8 + List.length l + S f)%nat by (simpl; lia).
    now rewrite parse_elements_Expenses.
Qed.

Lemma length_join_ge sep l :
  (forall x, In x l -> (2 <= List.length x)%nat) ->
  (2 * List.length l <= List.length (join sep l))%nat.
Proof.
  induction l as [|x l IH]; intros H; [simpl; lia|].
  assert (Hx : (2 <= List.length x)%nat) by (apply H; now left).
  assert (Hl : (2 * List.length l <= List.length (join sep l))%nat)
    by (apply IH; intros y Hy; apply H; now right).
  destruct l as [|y l'].
  - simpl in *. lia.
  - change (join sep (x :: y :: l')) with (x ++ sep ++ join sep (y :: l')).
    rewrite !length_app. cbn [List.length] in *. lia.
Qed.

Lemma Expense_text_length e : (2 <= List.length (Expense_text_of e))%nat.
Proof.
  unfold Expense_text_of. cbn [JSON_stringify Expense_value].
  rewrite !length_app. simpl. lia.
Qed.

(** [JSON.parse] undoes [JSON.stringify] on well-formed collections. *)
Lemma JSON_parse_stringify c :
  Forall wf_Expense c ->
  JSON_parse (JSON_stringify (expenses_value c)) = Some (expenses_value c).
Proof.
  intros W. destruct c as [|e l]; [reflexivity|].
  set (c := e :: l) in *. unfold JSON_parse.
  set (text := JSON_stringify (expenses_value c)).
  assert (L : (9 + List.length c <= 2 * List.length text + 2)%nat).
  { unfold text, c. rewrite expenses_text. cbn [List.length].
    rewrite length_app.
    pose proof (length_join_ge [44] (map Expense_text_of (e :: l))) as J.
    rewrite length_map in J. cbn [List.length] in *.
    assert (2 * S (List.length l)
            <= List.length (join [44%Z] (map Expense_text_of (e :: l))))%nat.
    { apply J. intros x Hx. apply in_map_iff in Hx as [e' [<- _]].
      apply Expense_text_length. }
    lia. }
  replace (2 * List.length text + 2)%nat
    with (9 + List.length c
          + (2 * List.length text + 2 - (9 + List.length c)))%nat by lia.
  rewrite <- (app_nil_r text). unfold text.
  rewrite parse_expenses by assumption. reflexivity.
Qed.

Lemma Map_get_set {V} (m : Map V) k v : Map_get (Map_set m k v) k = Some v.
Proof.
  induction m as [|[k' v'] m IH]; simpl.
  - now rewrite str_eqb_refl.
  - destruct (str_eqb k' k) eqn:E; simpl; rewrite E; [reflexivity|exact IH].
Qed.

Lemma load_save_Expenses c ls :
  Forall wf_Expense c ->
  load (save (expenses_value c) ls) = expenses_value c.
Proof.
  intros W. unfold load, save, getItem, setItem. rewrite Map_get_set.
  pose proof (JSON_parse_stringify c W) as P.
  rewrite expenses_text in *. cbn [app] in *. now rewrite P.
Qed.

(* ================================================================= *)
(** * JSON: the parser's fuel *)

Lemma skip_ws_length s : (List.length (skip_ws s) <= List.length s)%nat.
Proof.
  induction s as [|c s IH]; simpl; [lia|].
  destruct (is_json_ws c); simpl; lia.
Qed.

Lemma span_digits_length s :
  (List.length (fst (span_digits s)) + List.length (snd (span_digits s))
   = List.length s)%nat.
Proof.
  induction s as [|c s IH]; simpl; [reflexivity|].
  destruct (is_digit c); [|reflexivity].
  destruct (span_digits s) as [ds r]. simpl in *. lia.
Qed.

Lemma parse_string_body_length s : forall acc str r,
  parse_string_body s acc = Some (str, r) ->
  (List.length r < List.length s)%nat.
Proof.
  induction s as [s IH] using (well_founded_induction
    (Wf_nat.well_founded_ltof _ (@List.length Z))).
  unfold Wf_nat.ltof in IH.
  intros acc str r H. destruct s as [|c s']; [discriminate H|].
  cbn [parse_string_body] in H.
  destruct (c =? 34); [injection H as _ <-; simpl; lia|].
  destruct (c =? 92).
  - destruct s' as [|e r1]; [discriminate H|].
    destruct (e =? 117).
    + destruct r1 as [|h1 [|h2 [|h3 [|h4 r2]]]]; try discriminate H.
      destruct (hex4 h1 h2 h3 h4); [|discriminate H].
      apply IH in H; simpl in *; lia.
    + destruct (unescape e); [|discriminate H].
      apply IH in H; simpl in *; lia.
  - destruct (c <? 32); [discriminate H|].
    apply IH in H; simpl in *; lia.
Qed.

Lemma json_fraction_length s fp r :
  json_fraction s = Some (fp, r) -> (List.length r <= List.length s)%nat.
Proof.
  unfold json_fraction. destruct s as [|c s']; [intros [= _ <-]; lia|].
  destruct (c =? 46).
  - pose proof (span_digits_length s') as L.
    destruct (span_digits s') as [ds rest]. simpl in L.
    destruct (is_nil ds); [discriminate|]. intros [= _ <-]. simpl. lia.
  - intros [= _ <-]. lia.
Qed.

Lemma json_exponent_length s e r :
  json_exponent s = Some (e, r) -> (List.length r <= List.length s)%nat.
Proof.
  unfold json_exponent. destruct s as [|c s']; [intros [= _ <-]; lia|].
  destruct ((c =? 101) || (c =? 69)); [|intros [= _ <-]; lia].
  assert (G : forall t, (List.length t <= List.length s')%nat ->
    (let (ds, rest) := span_digits t in
     forall neg, (if is_nil ds then None
      else Some (if neg : bool then - digits_value ds else digits_value ds, rest))
     = Some (e, r) -> (List.length r <= List.length (c :: s'))%nat)).
  { intros t Ht. pose proof (span_digits_length t) as L.
    destruct (span_digits t) as [ds rest]. simpl in L.
    intros neg. destruct (is_nil ds); [discriminate|].
    intros [= _ <-]. simpl. lia. }
  destruct s' as [|c' t].
  - specialize (G [] (le_n _)). simpl in G. simpl. apply (G false).
  - destruct (c' =? 45).
    + specialize (G t ltac:(simpl; lia)).
      destruct (span_digits t) as [ds rest]. apply (G true).
    + destruct (c' =? 43).
      * specialize (G t ltac:(simpl; lia)).
        destruct (span_digits t) as [ds rest]. apply (G false).
      * specialize (G (c' :: t) (le_n _)).
        destruct (span_digits (c' :: t)) as [ds rest]. apply (G false).
Qed.

Lemma parse_number_length s n r :
  parse_number s = Some (n, r) -> (List.length r < List.length s)%nat.
Proof.
  unfold parse_number.
  assert (G : forall s1 neg', (List.length s1 <= List.length s)%nat ->
    (let (ip, r1) := span_digits s1 in
     match ip with
     | [] => None
     | d :: ip' =>
         if (d =? 0) && negb (is_nil ip') then None
         else match json_fraction r1 with
              | Some (fp, r2) =>
                  match json_exponent r2 with
                  | Some (e, r3) =>
                      Some (if neg' : bool
                            then neg (scale10 (digits_value (ip ++ fp))
                                        (e - Z.of_nat (List.length fp)))
                            else scale10 (digits_value (ip ++ fp))
                                   (e - Z.of_nat (List.length fp)), r3)
                  | None => None
                  end
              | None => None
              end
     end) = Some (n, r) -> (List.length r < List.length s)%nat).
  { intros s1 neg' Hs. pose proof (span_digits_length s1) as L.
    destruct (span_digits s1) as [ip r1]. simpl in L.
    destruct ip as [|d ip']; [discriminate|].
    destruct ((d =? 0) && negb (is_nil ip')); [discriminate|].
    destruct (json_fraction r1) as [[fp r2]|] eqn:Ef; [|discriminate].
    destruct (json_exponent r2) as [[e r3]|] eqn:Ee; [|discriminate].
    apply json_fraction_length in Ef. apply json_exponent_length in Ee.
    intros [= _ <-]. simpl in L. lia. }
  destruct s as [|c s'].
  - apply (G [] false (le_n _)).
  - destruct (c =? 45).
    + apply (G s' true). simpl. lia.
    + apply (G (c :: s') false (le_n _)).
Qed.

Ltac break_hyp H :=
  match type of H with
  | context [match ?x with _ => _ end] =>
      lazymatch x with
      | context [match _ with _ => _ end] => fail
      | _ => destruct x eqn:?
      end
  end.

Ltac len_facts :=
  repeat match goal with
  | E : skip_ws ?s = ?r |- _ =>
      lazymatch goal with
      | _ : (List.length r <= List.length s)%nat |- _ => fail
      | _ => let L := fresh "L" in
             pose proof (skip_ws_length s) as L; rewrite E in L
      end
  | E : parse_string_body ?s ?a = Some (_, ?r) |- _ =>
      lazymatch goal with
      | _ : (List.length r < List.length s)%nat |- _ => fail
      | _ => pose proof (parse_string_body_length _ _ _ _ E)
      end
  | E : parse_number ?s = Some (_, ?r) |- _ =>
      lazymatch goal with
      | _ : (List.length r < List.length s)%nat |- _ => fail
      | _ => pose proof (parse_number_length _ _ _ E)
      end
  end.

(** Every successful parse reads at least one character. *)
Lemma parse_length f :
  (forall s v r, parse_value f s = Some (v, r) ->
                 (List.length r < List.length s)%nat)
  /\ (forall s acc l r, parse_elements f s acc = Some (l, r) ->
                        (List.length r < List.length s)%nat)
  /\ (forall s acc o r, parse_members f s acc = Some (o, r) ->
                        (List.length r < List.length s)%nat).
Proof.
  induction f as [|f (IHv & IHe & IHm)]; [repeat split; discriminate|].
  repeat split.
  - intros s v r H. cbn [parse_value] in H.
    repeat (break_hyp H; try discriminate H);
      try (injection H as <- <-); len_facts;
      repeat match goal with
      | E : parse_members f _ _ = Some _ |- _ => apply IHm in E
      | E : parse_elements f _ _ = Some _ |- _ => apply IHe in E
      end;
      cbn [List.length] in *; try lia;
      repeat match goal with
             | |- context [match ?j with _ => _ end] => destruct j
             end; cbn [List.length] in *; lia.
  - intros s acc l r H. cbn [parse_elements] in H.
    repeat (break_hyp H; try discriminate H);
      try (injection H as <- <-); len_facts;
      repeat match goal with
      | E : parse_value f _ = Some _ |- _ => apply IHv in E
      | E : parse_elements f _ _ = Some _ |- _ => apply IHe in E
      end;
      cbn [List.length] in *; try lia.
  - intros s acc o r H. cbn [parse_members] in H.
    repeat (break_hyp H; try discriminate H);
      try (injection H as <- <-); len_facts;
      repeat match goal with
      | E : parse_value f _ = Some _ |- _ => apply IHv in E
      | E : parse_members f _ _ = Some _ |- _ => apply IHm in E
      end;
      cbn [List.length] in *; try lia.
Qed.

Ltac inner_len f :=
  repeat match goal with
  | E : parse_value f ?s = Some (_, ?r) |- _ =>
      lazymatch goal with
      | _ : (List.length r < List.length s)%nat |- _ => fail
      | _ => pose proof (proj1 (parse_length f) _ _ _ E)
      end
  end.

(** Fuel above twice the length of the text never changes the result. *)
Lemma parse_fuel f :
  (forall s p, parse_value f s = Some p ->
     forall g, (2 * List.length s <= g)%nat -> parse_value g s = Some p)
  /\ (forall s acc p, parse_elements f s acc = Some p ->
        forall g, (2 * List.length s + 1 <= g)%nat ->
                  parse_elements g s acc = Some p)
  /\ (forall s acc p, parse_members f s acc = Some p ->
        forall g, (2 * List.length s + 1 <= g)%nat ->
                  parse_members g s acc = Some p).
Proof.
  induction f as [|f (IHv & IHe & IHm)]; [repeat split; discriminate|].
  repeat split.
  - intros s [v r] H g Hg.
    pose proof (proj1 (parse_length (S f)) _ _ _ H) as Hl.
    destruct g as [|g]; [lia|].
    cbn [parse_value] in H |- *.
    repeat (break_hyp H; try discriminate H; len_facts;
            cbn [List.length] in *;
            try match goal with
            | E : parse_members f ?t ?a = Some ?p
              |- context [parse_members g ?t ?a] =>
                rewrite (IHm t a p E g) by (cbn [List.length]; lia)
            | E : parse_elements f ?t ?a = Some ?p
              |- context [parse_elements g ?t ?a] =>
                rewrite (IHe t a p E g) by (cbn [List.length]; lia)
            end);
      exact H.
  - intros s acc [l r] H g Hg.
    destruct g as [|g]; [lia|].
    cbn [parse_elements] in H |- *.
    repeat (break_hyp H; try discriminate H; len_facts; inner_len f;
            cbn [List.length] in *;
            try match goal with
            | E : parse_value f ?t = Some ?p
              |- context [parse_value g ?t] =>
                rewrite (IHv t p E g) by (cbn [List.length]; lia)
            end);
      try exact H.
    all: apply IHe with (g := g) in H; [exact H|cbn [List.length]; lia].
  - intros s acc [o r] H g Hg.
    destruct g as [|g]; [lia|].
    cbn [parse_members] in H |- *.
    repeat (break_hyp H; try discriminate H; len_facts; inner_len f;
            cbn [List.length] in *;
            try match goal with
            | E : parse_value f ?t = Some ?p
              |- context [parse_value g ?t] =>
                rewrite (IHv t p E g) by (cbn [List.length]; lia)
            end);
      try exact H.
    all: apply IHm with (g := g) in H; [exact H|cbn [List.length]; lia].
Qed.

(** The fuel of [JSON_parse] is enough: a text that some amount of fuel
    parses is parsed by [JSON_parse], to the same value. *)
Lemma JSON_parse_fuel f s v r :
  parse_value f s = Some (v, r) -> skip_ws r = [] ->
  JSON_parse s = Some v.
Proof.
  intros H E. unfold JSON_parse.
  rewrite (proj1 (parse_fuel f) s (v, r) H) by lia. now rewrite E.
Qed.

Lemma JSON_parse_None s :
  JSON_parse s = None ->
  forall f v r, parse_value f s = Some (v, r) -> skip_ws r <> [].
Proof.
  intros N f v r H E. rewrite (JSON_parse_fuel f s v r H E) in N.
  discriminate N.
Qed.

(* ================================================================= *)
(** * The add operation *)





Lemma scale10_not_NaN m e : isNaN (scale10 m e) = false.
Proof.
  unfold scale10. destruct (0 <=? e); [reflexivity|].
  now destruct (norm_Fin m (Z.to_nat (- e))) as [a [sa ->]].
Qed.

Lemma span_digits_head c r :
  is_nil (fst (span_digits (c :: r))) = negb (is_digit c).
Proof.
  cbn [span_digits]. destruct (is_digit c); [|reflexivity].
  now destruct (span_digits r).
Qed.

(** [StrUnsignedDecimalLiteral] finds a literal exactly at the strings that
    start with a number, and its value is never [NaN]. *)
Lemma StrUnsignedDecimalLiteral_spec u :
  match StrUnsignedDecimalLiteral u with
  | Some v => isNaN v = false /\ starts_number u = true
  | None => starts_number u = false
  end.
Proof.
  unfold StrUnsignedDecimalLiteral, starts_number.
  destruct (starts_with (lit "Infinity") u); [now split|].
  cbn [orb]. destruct u as [|c r]; [reflexivity|].
  pose proof (span_digits_head c r) as Hh.
  destruct (span_digits (c :: r)) as [ip r1] eqn:Es. cbn [fst] in Hh.
  destruct (is_digit c) eqn:Dc.
  - destruct ip as [|d ip']; [discriminate Hh|].
    destruct (match r1 with
              | [] => ([], r1)
              | c0 :: r0 => if c0 =? 46 then span_digits r0 else ([], r1)
              end) as [fp r2].
    cbn [is_nil andb orb]. split; [apply scale10_not_NaN|reflexivity].
  - cbn [span_digits] in Es. rewrite Dc in Es. injection Es as <- <-.
    cbn [orb is_nil andb]. destruct (c =? 46); [|reflexivity].
    cbn [andb]. destruct r as [|d r']; [reflexivity|].
    pose proof (span_digits_head d r') as Hd.
    destruct (span_digits (d :: r')) as [fp r2]. cbn [fst] in Hd.
    rewrite Hd. destruct (is_digit d); cbn [negb]; [|reflexivity].
    split; [apply scale10_not_NaN|reflexivity].
Qed.

Lemma isNaN_neg v : isNaN (neg v) = isNaN v.
Proof. now destruct v. Qed.

(** [parseFloat] gives [NaN] exactly on the strings that do not start with
    a number. *)
Lemma parseFloat_NaN s : isNaN (parseFloat s) = negb (has_numeric_prefix s).
Proof.
  unfold parseFloat, has_numeric_prefix.
  destruct (trimStart s) as [|c r].
  - reflexivity.
  - destruct (c =? 45) eqn:E1; cbn [orb].
    + pose proof (StrUnsignedDecimalLiteral_spec r) as H.
      destruct (StrUnsignedDecimalLiteral r) as [v|].
      * destruct H as [H1 H2]. now rewrite isNaN_neg, H1, H2.
      * now rewrite H.
    + destruct (c =? 43) eqn:E2.
      * pose proof (StrUnsignedDecimalLiteral_spec r) as H.
        destruct (StrUnsignedDecimalLiteral r) as [v|].
        -- destruct H as [H1 H2]. now rewrite H1, H2.
        -- now rewrite H.
      * pose proof (StrUnsignedDecimalLiteral_spec (c :: r)) as H.
        destruct (StrUnsignedDecimalLiteral (c :: r)) as [v|].
        -- destruct H as [H1 H2]. now rewrite H1, H2.
        -- now rewrite H.
Qed.

(** C2.  On an empty date, or an amount that is empty, is not numeric (does
    not start with a number) or is not strictly positive, [addExpense]
    changes nothing: not the collection, not the form. *)
Theorem addExpense_invalid uuid st :
  date st = []
  \/ amount st = []
  \/ has_numeric_prefix (amount st) = false
  \/ leb (parseFloat (amount st)) zero = true ->
  addExpense uuid st = st
  /\ expenses (addExpense uuid st) = expenses st.
Proof.
  intros H. assert (G : addExpense uuid st = st); [|now rewrite G].
  unfold addExpense.
  destruct H as [H|[H|[H|H]]].
  - now rewrite H.
  - rewrite H. cbn. now rewrite orb_true_r.
  - rewrite parseFloat_NaN, H. cbn. now rewrite orb_true_r.
  - rewrite H. now rewrite orb_true_r.
Qed.

(* ================================================================= *)
(** * The remove operation *)

Lemma filter_id {A} (f : A -> bool) l :
  (forall x, In x l -> f x = true) -> filter f l = l.
Proof.
  induction l as [|x l IH]; intros H; simpl; [reflexivity|].
  rewrite (H x (or_introl eq_refl)). f_equal. apply IH.
  intros y Hy. apply H. now right.
Qed.

Lemma filter_idem {A} (f : A -> bool) l : filter f (filter f l) = filter f l.
Proof.
  apply filter_id. intros x Hx. now apply filter_In in Hx.
Qed.

(** C6.  Removing an id twice is removing it once, and removing an id that
    no entry has changes nothing. *)
Theorem removeExpense_idempotent id st :
  removeExpense id (removeExpense id st) = removeExpense id st
  /\ ((forall e, In e (expenses st) -> Expense.id e <> id) ->
      removeExpense id st = st).
Proof.
  split.
  - unfold removeExpense. cbn [expenses date amount category note filterMonth].
    now rewrite filter_idem.
  - intros H. destruct st as [es d a c n fm]. unfold removeExpense.
    cbn [expenses date amount category note filterMonth] in *.
    f_equal. apply filter_id. intros e He.
    apply negb_true_iff, str_eqb_neq. now apply H.
Qed.

Lemma filter_filter_sub {A} (p q : A -> bool) l :
  (forall x, p x = true -> q x = true) ->
  filter p (filter q l) = filter p l.
Proof.
  intros H. induction l as [|x l IH]; simpl; [reflexivity|].
  destruct (q x) eqn:Q; simpl.
  - now rewrite IH.
  - destruct (p x) eqn:P; [|exact IH].
    apply H in P. congruence.
Qed.

(** C10.  [removeExpense] keeps every entry that has another id, as it is,
    and keeps the kept entries in their order: any selection of entries with
    other ids reads the same before and after.  The form and the month
    filter are untouched. *)
Theorem removeExpense_frame id st :
  (forall e, In e (expenses (removeExpense id st))
             <-> In e (expenses st) /\ Expense.id e <> id)
  /\ (forall p : Expense.t -> bool,
        (forall e, p e = true -> Expense.id e <> id) ->
        filter p (expenses (removeExpense id st)) = filter p (expenses st))
  /\ (forall l1 e1 l2 e2 l3,
        expenses st = l1 ++ e1 :: l2 ++ e2 :: l3 ->
        Expense.id e1 <> id -> Expense.id e2 <> id ->
        exists l1' l2' l3',
          expenses (removeExpense id st) = l1' ++ e1 :: l2' ++ e2 :: l3')
  /\ date (removeExpense id st) = date st
  /\ amount (removeExpense id st) = amount st
  /\ category (removeExpense id st) = category st
  /\ note (removeExpense id st) = note st
  /\ filterMonth (removeExpense id st) = filterMonth st.
Proof.
  unfold removeExpense.
  cbn [expenses date amount category note filterMonth].
  set (keep := fun e => negb (str_eqb (Expense.id e) id)).
  assert (K : forall e, keep e = true <-> Expense.id e <> id).
  { intros e. unfold keep. now rewrite negb_true_iff, str_eqb_neq. }
  split; [|split; [|split; [|repeat split]]].
  - intros e. rewrite filter_In, K. tauto.
  - intros p Hp. apply filter_filter_sub. intros e He. apply K. now apply Hp.
  - intros l1 e1 l2 e2 l3 E H1 H2. rewrite E.
    exists (filter keep l1), (filter keep l2), (filter keep l3).
    rewrite filter_app. cbn [filter].
    rewrite (proj2 (K e1) H1), filter_app. cbn [filter].
    now rewrite (proj2 (K e2) H2).
Qed.

(* ================================================================= *)
(** * Claims about the top category, the date bound and persistence *)

(** C8.  Of a non-empty map whose amounts are numbers, the card shows the
    entry with the greatest amount, and of several such the one that entered
    the map first. *)
Theorem topCategory_first_max (m : Map number) :
  m <> [] ->
  Forall (fun e => isNaN (snd e) = false) m ->
  exists top, topCategory m = Some top /\ first_max top m.
Proof.
  intros Hm Hn. pose proof (sort_head_first_max m Hn) as H.
  unfold topCategory. destruct m as [|e m']; [congruence|].
  destruct (Array_sort by_amount_desc (e :: m')) as [|top t];
    [discriminate H|].
  exists top. split; [reflexivity|exact H].
Qed.

(** C9, at a failing input.  With the clock on 2026-11-01 and the date
    field set to 2999-12-31, [addExpense] stores the entry: nothing in it
    compares the date with the current one. *)
Theorem addExpense_future_date :
  let today := lit "2026-11-01" in
  let st := setAmount (lit "1")
              (setDate (lit "2999-12-31") (initial Date_local_iso today)) in
  exists item,
    expenses (addExpense (lit "u-1") st) = [item]
    /\ Expense.date item = lit "2999-12-31"
    /\ str_ltb (date_input_max today) (Expense.date item) = true.
Proof.
  eexists. split; [reflexivity|]. split; reflexivity.
Qed.

(** C4, amended.  A collection whose amounts are finite numbers is read back
    from the slot exactly as it was saved, entry by entry and in order. *)
Theorem load_save_finite c ls :
  Forall wf_Expense c ->
  load (save (expenses_value c) ls) = expenses_value c
  /\ roundtrip_claim c ls.
Proof.
  intros W. pose proof (load_save_Expenses c ls W) as H.
  split; [exact H|]. exists c. split; [exact H|tauto].
Qed.

(** C4 as stated fails: an infinite amount is written as [null], and what
    is read back is no collection of entries at all. *)
Lemma roundtrip_counterexample :
  ~ roundtrip_claim (expenses infinite_state) [].
Proof.
  intros [c' [H _]]. vm_compute in H.
  destruct c' as [|e [|e2 c2]]; try discriminate H.
Qed.


(** Valid JSON of any shape becomes the state. *)
Lemma load_valid_json ls raw v :
  getItem ls STORAGE_KEY = Some raw -> JSON_parse raw = Some v ->
  load ls = v.
Proof.
  unfold load. intros H P. rewrite H.
  destruct raw as [|c r]; [discriminate P|]. now rewrite P.
Qed.


(* ================================================================= *)
(** * The invariant of stored entries is kept *)





Lemma add_finite x y :
  isFinite x = true -> isFinite y = true -> isFinite (add x y) = true.
Proof.
  destruct x as [| a | m1 s1], y as [| b | m2 s2]; try discriminate.
  intros _ _. cbn [add].
  now destruct (norm_Fin (m1 * pow10 (Nat.max s1 s2 - s1)
                          + m2 * pow10 (Nat.max s1 s2 - s2))
                         (Nat.max s1 s2)) as [a [sa ->]].
Qed.

Lemma Map_get_Forall {V} (P : V -> Prop) (m : Map V) k v :
  Forall (fun kv => P (snd kv)) m -> Map_get m k = Some v -> P v.
Proof.
  induction 1 as [|[k' v'] m Hv Hm IH]; simpl; [discriminate|].
  destruct (str_eqb k' k); [intros [= <-]; exact Hv|exact IH].
Qed.

Lemma Map_set_Forall {V} (P : V -> Prop) (m : Map V) k v :
  Forall (fun kv => P (snd kv)) m -> P v ->
  Forall (fun kv => P (snd kv)) (Map_set m k v).
Proof.
  induction 1 as [|[k' v'] m Hv Hm IH]; intros Pv; simpl.
  - now repeat constructor.
  - destruct (str_eqb k' k); constructor; auto.
Qed.

Lemma Map_set_nonempty {V} (m : Map V) k v : Map_set m k v <> [].
Proof.
  destruct m as [|[k' v'] m]; simpl; [discriminate|].
  destruct (str_eqb k' k); discriminate.
Qed.

(** Sums of finite amounts are finite: the map of a collection of finite
    amounts holds numbers only, and the card of a non-empty month shows its
    first maximum. *)
Lemma byCategory_finite l :
  Forall (fun e => isFinite (Expense.amount e) = true) l ->
  Forall (fun kv => isFinite (snd kv) = true) (byCategory l)
  /\ (l <> [] -> byCategory l <> []).
Proof.
  unfold byCategory.
  set (step := fun (m : Map number) (e : Expense.t) =>
         Map_set m (Expense.category e)
           (add (match Map_get m (Expense.category e) with
                 | Some v => v
                 | None => zero
                 end) (Expense.amount e))).
  assert (G : forall l M,
    Forall (fun e => isFinite (Expense.amount e) = true) l ->
    Forall (fun kv => isFinite (snd kv) = true) M ->
    Forall (fun kv => isFinite (snd kv) = true) (fold_left step l M)
    /\ (M <> [] -> fold_left step l M <> [])).
  { clear l. induction l as [|e l IH]; intros M Hl HM; cbn [fold_left].
    - split; [exact HM|auto].
    - inversion Hl as [|? ? He Hl']; subst.
      destruct (IH (step M e) Hl') as [F N].
      + unfold step.
        apply (Map_set_Forall (fun v => isFinite v = true)); [exact HM|].
        apply add_finite; [|exact He].
        destruct (Map_get M (Expense.category e)) as [v|] eqn:Eg;
          [|reflexivity].
        exact (Map_get_Forall (fun v => isFinite v = true) M _ v HM Eg).
      + split; [exact F|]. intros _. apply N. unfold step.
        apply Map_set_nonempty. }
  intros H. destruct l as [|e l].
  - split; [constructor|congruence].
  - inversion H as [|? ? He Hl]; subst. cbn [fold_left].
    destruct (G l (step [] e) Hl) as [F N].
    + unfold step.
      apply (Map_set_Forall (fun v => isFinite v = true)); [constructor|].
      apply add_finite; [reflexivity|exact He].
    + split; [exact F|]. intros _. apply N. unfold step.
      apply Map_set_nonempty.
Qed.

Lemma totals_top_category Date_local st :
  Forall (fun e => isFinite (Expense.amount e) = true) (expenses st) ->
  filtered Date_local st <> [] ->
  exists top,
    topCategory (snd (totals Date_local st)) = Some top
    /\ first_max top (snd (totals Date_local st)).
Proof.
  intros F N. unfold totals. cbn [snd].
  assert (F' : Forall (fun e => isFinite (Expense.amount e) = true)
                      (filtered Date_local st)).
  { unfold filtered. rewrite Forall_forall in *. intros e He.
    apply filter_In in He as [He _]. now apply F. }
  destruct (byCategory_finite _ F') as [Hf Hn].
  specialize (Hn N).
  assert (Hnan : Forall (fun e => isNaN (snd e) = false)
                        (byCategory (filtered Date_local st))).
  { rewrite Forall_forall in *. intros kv Hkv. specialize (Hf kv Hkv).
    destruct (snd kv); [discriminate Hf|reflexivity|reflexivity]. }
  pose proof (sort_head_first_max _ Hnan) as H.
  unfold topCategory.
  destruct (byCategory (filtered Date_local st)) as [|e m'] eqn:E;
    [congruence|].
  destruct (Array_sort by_amount_desc (e :: m')) as [|top t];
    [discriminate H|].
  exists top. split; [reflexivity|exact H].
Qed.

(* ================================================================= *)
(** * Scenarios *)

Example scenario_totals :
  totals Date_local_iso scenario_state
  = (Fin 35 0, [(lit "Travel", Fin 5 0); (lit "Dining", Fin 30 0)])
  /\ topCategory (snd (totals Date_local_iso scenario_state))
     = Some (lit "Dining", Fin 30 0)
  /\ List.length (filtered Date_local_iso scenario_state) = 3%nat.
Proof. repeat split; reflexivity. Qed.

Example scenario_other_month :
  totals Date_local_iso (setFilterMonth (lit "2024-02") scenario_state)
  = (Fin 7 0, [(lit "Other", Fin 7 0)])
  /\ expenses (setFilterMonth (lit "2024-02") scenario_state)
     = expenses scenario_state.
Proof. split; reflexivity. Qed.

Example scenario_months :
  monthsAvailable Date_local_iso (lit "2026-11-01") scenario_state
  = [lit "2024-03"; lit "2024-02"]
  /\ monthsAvailable Date_local_iso (lit "2026-11-01")
       (initial Date_local_iso (lit "2026-11-01"))
     = [lit "2026-11"].
Proof. split; reflexivity. Qed.

Example scenario_empty :
  totals Date_local_iso (initial Date_local_iso (lit "2026-11-01"))
  = (zero, [])
  /\ topCategory (snd (totals Date_local_iso
                         (initial Date_local_iso (lit "2026-11-01"))))
     = None.
Proof. split; reflexivity. Qed.

Example scenario_amounts :
  map parseFloat [lit "12.346"; lit " 7"; lit "1e3"; lit ".5"; lit "-2";
                  lit "abc"; []; lit "12abc"; lit "Infinity"]
  = [Fin 12346 3; Fin 7 0; Fin 1000 0; Fin 5 1; Fin (-2) 0;
     NaN; NaN; Fin 12 0; Infinity false].
Proof. reflexivity. Qed.

Example scenario_number_text :
  map Number_toString
      [Fin 1 6; Fin 1 7; Fin 1235 2; Fin (10 ^ 21) 0; Fin (10 ^ 20) 0;
       Fin (-5) 1; zero; Infinity false]
  = [lit "0.000001"; lit "1e-7"; lit "12.35"; lit "1e+21";
     lit "100000000000000000000"; lit "-0.5"; lit "0"; lit "Infinity"].
Proof. reflexivity. Qed.

Example scenario_json :
  JSON_parse (lit " [1, 2.50 ,-3e2, [true, null], {}] ")
  = Some (VArr [VNum (Fin 1 0); VNum (Fin 25 1); VNum (Fin (-300) 0);
                VArr [VBool true; VNull]; VObj []])
  /\ JSON_parse (lit "[1,]") = None
  /\ JSON_parse (lit "01") = None
  /\ JSON_parse [] = None.
Proof. repeat split; reflexivity. Qed.

(* ================================================================= *)
(** * The theorems at sample inputs *)


Lemma addExpense_invalid_witness :
  has_numeric_prefix (amount (setAmount (lit "abc") sample_state)) = false
  /\ addExpense (lit "u-1") (setAmount (lit "abc") sample_state)
     = setAmount (lit "abc") sample_state.
Proof.
  split; [reflexivity|].
  apply (addExpense_invalid (lit "u-1") (setAmount (lit "abc") sample_state)).
  right. right. left. reflexivity.
Defined.

Lemma topCategory_first_max_witness :
  sample_map <> []
  /\ Forall (fun e => isNaN (snd e) = false) sample_map
  /\ exists top,
       topCategory sample_map = Some top /\ first_max top sample_map
       /\ top = (lit "Travel", Fin 305 1).
Proof.
  assert (N : sample_map <> []) by discriminate.
  assert (F : Forall (fun e => isNaN (snd e) = false) sample_map)
    by (repeat constructor).
  split; [exact N|]. split; [exact F|].
  destruct (topCategory_first_max sample_map N F) as [top [H1 H2]].
  exists top. split; [exact H1|]. split; [exact H2|].
  vm_compute in H1. now injection H1.
Defined.

Lemma sample_entry_wf : wf_Expense sample_entry.
Proof.
  assert (L : forall s, forallb (fun c => (0 <=? c) && (c <? 65536)) s = true
                        -> wf_string s).
  { intros s H. apply Forall_forall. intros c Hc.
    rewrite forallb_forall in H. apply H in Hc.
    apply andb_prop in Hc as [H1 H2].
    apply Z.leb_le in H1. apply Z.ltb_lt in H2. split; assumption. }
  unfold wf_Expense.
  split; [now apply L|]. split; [now apply L|]. split; [reflexivity|].
  split; [right; discriminate|]. split; now apply L.
Qed.

Lemma load_save_finite_witness :
  Forall wf_Expense [sample_entry; sample_entry]
  /\ load (save (expenses_value [sample_entry; sample_entry]) [])
     = expenses_value [sample_entry; sample_entry].
Proof.
  assert (W : Forall wf_Expense [sample_entry; sample_entry])
    by (constructor; [apply sample_entry_wf|];
        constructor; [apply sample_entry_wf|constructor]).
  split; [exact W|].
  exact (proj1 (load_save_finite [sample_entry; sample_entry] [] W)).
Defined.


(* ================================================================= *)
(** * Deleting and the month view *)

Lemma filter_comm {A} (p q : A -> bool) l :
  filter p (filter q l) = filter q (filter p l).
Proof.
  induction l as [|x l IH]; simpl; [reflexivity|].
  destruct (p x) eqn:P, (q x) eqn:Q; simpl; rewrite ?P, ?Q, IH; reflexivity.
Qed.

(** X1.  Deleting and filtering by month commute: after [removeExpense id]
    the month view is the old view without the entries of that id, in the
    old order, whatever month is selected. *)
Theorem filtered_removeExpense Date_local id st :
  filtered Date_local (removeExpense id st)
  = filter (fun e => negb (has_id id e)) (filtered Date_local st)
  /\ (forall e, In e (filtered Date_local (removeExpense id st))
                <-> In e (filtered Date_local st) /\ Expense.id e <> id).
Proof.
  assert (E : filtered Date_local (removeExpense id st)
    = filter (fun e => negb (has_id id e)) (filtered Date_local st)).
  { unfold filtered, removeExpense, has_id. cbn [expenses filterMonth].
    apply filter_comm. }
  split; [exact E|]. intros e. rewrite E, filter_In. unfold has_id.
  now rewrite negb_true_iff, str_eqb_neq.
Qed.

(* ================================================================= *)
(** * The map of the month, key by key *)

Lemma str_eqb_sym a b : str_eqb a b = str_eqb b a.
Proof.
  destruct (str_eqb a b) eqn:E.
  - apply str_eqb_eq in E. subst. symmetry. apply str_eqb_refl.
  - symmetry. apply str_eqb_neq. apply str_eqb_neq in E. congruence.
Qed.

Lemma Map_get_set_other {V} (m : Map V) k k' v :
  str_eqb k k' = false -> Map_get (Map_set m k v) k' = Map_get m k'.
Proof.
  intros N. induction m as [|[k0 v0] m IH]; simpl.
  - rewrite N. reflexivity.
  - destruct (str_eqb k0 k) eqn:E; simpl.
    + apply str_eqb_eq in E. subst k0. now rewrite N.
    + destruct (str_eqb k0 k'); [reflexivity|exact IH].
Qed.

Lemma byCategory_fold_get k l : forall M,
  Map_get (fold_left byCategory_step l M) k
  = match filter (in_category k) l with
    | [] => Map_get M k
    | es =>
        Some (fold_left (fun s e => add s (Expense.amount e)) es
                (match Map_get M k with Some v => v | None => zero end))
    end.
Proof.
  induction l as [|e l IH]; intros M; cbn [fold_left filter].
  - reflexivity.
  - rewrite IH. unfold in_category at 2.
    destruct (str_eqb (Expense.category e) k) eqn:E.
    + apply str_eqb_eq in E. subst k.
      assert (G : Map_get (byCategory_step M e) (Expense.category e)
                  = Some (add (match Map_get M (Expense.category e) with
                               | Some v => v
                               | None => zero
                               end) (Expense.amount e)))
        by (unfold byCategory_step; apply Map_get_set).
      rewrite G.
      destruct (filter (in_category (Expense.category e)) l); reflexivity.
    + assert (G : Map_get (byCategory_step M e) k = Map_get M k)
        by (unfold byCategory_step; now apply Map_get_set_other).
      rewrite G. reflexivity.
Qed.

Lemma byCategory_get l k :
  Map_get (byCategory l) k
  = if existsb (in_category k) l
    then Some (total (filter (in_category k) l))
    else None.
Proof.
  change (byCategory l) with (fold_left byCategory_step l []).
  rewrite byCategory_fold_get. cbn [Map_get].
  induction l as [|e l IH]; cbn [filter existsb]; [reflexivity|].
  destruct (in_category k e); cbn [orb]; [reflexivity|exact IH].
Qed.

Lemma str_mem_keys {V} (m : Map V) k :
  str_mem k (map fst m)
  = match Map_get m k with Some _ => true | None => false end.
Proof.
  unfold str_mem. induction m as [|[k0 v0] m IH]; simpl; [reflexivity|].
  rewrite (str_eqb_sym k k0). destruct (str_eqb k0 k); [reflexivity|exact IH].
Qed.

Lemma Map_set_keys {V} (m : Map V) k v :
  map fst (Map_set m k v) = Set_add (map fst m) k.
Proof.
  unfold Set_add. rewrite str_mem_keys.
  induction m as [|[k0 v0] m IH]; simpl; [reflexivity|].
  destruct (str_eqb k0 k) eqn:E; simpl; [reflexivity|].
  rewrite IH. destruct (Map_get m k); reflexivity.
Qed.

Lemma byCategory_key_list l :
  map fst (byCategory l) = Set_from (map Expense.category l).
Proof.
  change (byCategory l) with (fold_left byCategory_step l []).
  unfold Set_from.
  change (@nil jsstring) with (map fst (@nil (jsstring * number))).
  generalize (@nil (jsstring * number)).
  induction l as [|e l IH]; intros M; cbn [fold_left map]; [reflexivity|].
  rewrite IH. f_equal. unfold byCategory_step. apply Map_set_keys.
Qed.

Lemma byCategory_nil l : byCategory l = [] <-> l = [].
Proof.
  split; [|intros ->; reflexivity].
  destruct l as [|e l]; [reflexivity|]. intros E. exfalso.
  pose proof (byCategory_key_list (e :: l)) as K. rewrite E in K.
  assert (I : In (Expense.category e)
                 (Set_from (map Expense.category (e :: l)))).
  { apply Set_from_In. now left. }
  rewrite <- K in I. destruct I.
Qed.

(** X2.  What [totals.byCategory.get(k)] returns: nothing when no entry of
    the month has category [k], and otherwise the sum of the amounts of the
    entries of that category, added in the order of the view. *)
Theorem totals_byCategory_get Date_local st k :
  Map_get (snd (totals Date_local st)) k
  = if existsb (in_category k) (filtered Date_local st)
    then Some (total (filter (in_category k) (filtered Date_local st)))
    else None.
Proof.
  unfold totals. cbn [snd]. apply byCategory_get.
Qed.

(** X3.  The keys of [totals.byCategory] are the categories of the entries
    of the month, each once, in the order in which they first occur in the
    view. *)
Theorem totals_byCategory_keys Date_local st :
  map fst (snd (totals Date_local st))
  = Set_from (map Expense.category (filtered Date_local st))
  /\ NoDup (map fst (snd (totals Date_local st))).
Proof.
  unfold totals. cbn [snd].
  split; [apply byCategory_key_list|].
  rewrite byCategory_key_list. apply Set_from_NoDup.
Qed.

(** X4.  The "Top category" card shows its placeholder exactly when the
    month has no entry. *)
Theorem topCategory_placeholder Date_local st :
  topCategory (snd (totals Date_local st)) = None
  <-> filtered Date_local st = [].
Proof.
  unfold totals. cbn [snd]. rewrite <- byCategory_nil.
  unfold topCategory.
  destruct (byCategory (filtered Date_local st)) as [|kv m] eqn:E.
  - split; reflexivity.
  - split; [|discriminate]. intros H. exfalso.
    pose proof (Array_sort_perm by_amount_desc (kv :: m)) as P.
    destruct (Array_sort by_amount_desc (kv :: m)); [|discriminate H].
    apply Permutation_nil in P. discriminate P.
Qed.

(* ================================================================= *)
(** * What an accepted add stores and shows *)

Lemma addExpense_cases uuid st :
  addExpense uuid st
  = if add_rejected st then st
    else {| expenses := new_item uuid st :: expenses st;
            date := date st; amount := []; category := category st;
            note := []; filterMonth := filterMonth st |}.
Proof. reflexivity. Qed.








(** X7.  An accepted add shows in the month view only when the date of the
    form falls in the selected month: then the new entry is the first row;
    otherwise the view and its totals stay as they are. *)
Theorem filtered_addExpense Date_local uuid st :
  add_rejected st = false ->
  if str_eqb (monthKey Date_local (date st)) (filterMonth st)
  then filtered Date_local (addExpense uuid st)
       = new_item uuid st :: filtered Date_local st
  else filtered Date_local (addExpense uuid st) = filtered Date_local st
       /\ totals Date_local (addExpense uuid st) = totals Date_local st.
Proof.
  intros Ha. rewrite addExpense_cases, Ha.
  unfold totals, filtered. cbn [expenses filterMonth filter].
  change (Expense.date (new_item uuid st)) with (date st).
  destruct (str_eqb (monthKey Date_local (date st)) (filterMonth st)).
  - reflexivity.
  - split; reflexivity.
Qed.

(** X8.  A second click on Add adds nothing: an accepted add empties the
    amount field, and a rejected one leaves the state as it was. *)
Theorem addExpense_twice u1 u2 st :
  addExpense u2 (addExpense u1 st) = addExpense u1 st.
Proof.
  rewrite (addExpense_cases u1 st).
  destruct (add_rejected st) eqn:R.
  - rewrite addExpense_cases, R. reflexivity.
  - rewrite addExpense_cases. unfold add_rejected at 1. cbn [amount date].
    change (parseFloat []) with NaN. cbn [isNaN].
    now rewrite orb_true_r.
Qed.

(* ================================================================= *)
(** * Adding and deleting together *)

Lemma filter_length_split {A} (p : A -> bool) l :
  (List.length (filter p l) + List.length (filter (fun x => negb (p x)) l)
   = List.length l)%nat.
Proof.
  induction l as [|x l IH]; simpl; [reflexivity|].
  destruct (p x); simpl; lia.
Qed.

Lemma NoDup_map_filter {A B} (f : A -> B) (p : A -> bool) l :
  NoDup (map f l) -> NoDup (map f (filter p l)).
Proof.
  induction l as [|x l IH]; simpl; intros H; [constructor|].
  inversion H as [|? ? Hn Hl]; subst.
  destruct (p x); simpl; [|now apply IH].
  constructor; [|now apply IH].
  intros C. apply Hn. apply in_map_iff in C as [y [E Hy]].
  apply in_map_iff. exists y. split; [exact E|].
  now apply filter_In in Hy.
Qed.

Lemma NoDup_ids_count id l :
  NoDup (map Expense.id l) ->
  List.length (filter (has_id id) l)
  = if existsb (has_id id) l then 1%nat else 0%nat.
Proof.
  induction l as [|e l IH]; simpl; intros H; [reflexivity|].
  inversion H as [|? ? Hn Hl]; subst.
  destruct (has_id id e) eqn:E; simpl.
  - unfold has_id in E. apply str_eqb_eq in E.
    specialize (IH Hl). destruct (existsb (has_id id) l) eqn:X.
    + exfalso. apply Hn. apply existsb_exists in X as [y [Hy Ey]].
      unfold has_id in Ey. apply str_eqb_eq in Ey.
      apply in_map_iff. exists y. split; [congruence|exact Hy].
    + now rewrite IH.
  - now apply IH.
Qed.

(** X9.  When the ids of the collection are distinct, deleting the id of
    one of its entries shortens the collection by exactly one entry, and
    that id is gone. *)
Theorem removeExpense_length id st :
  NoDup (map Expense.id (expenses st)) ->
  In id (map Expense.id (expenses st)) ->
  S (List.length (expenses (removeExpense id st))) = List.length (expenses st)
  /\ ~ In id (map Expense.id (expenses (removeExpense id st))).
Proof.
  intros N I. unfold removeExpense. cbn [expenses].
  pose proof (filter_length_split (has_id id) (expenses st)) as L.
  change (fun x => negb (has_id id x))
    with (fun e => negb (str_eqb (Expense.id e) id)) in L.
  assert (X : existsb (has_id id) (expenses st) = true).
  { apply in_map_iff in I as [e [E He]]. apply existsb_exists.
    exists e. split; [exact He|]. unfold has_id. now apply str_eqb_eq. }
  rewrite (NoDup_ids_count id _ N), X in L. split; [lia|].
  intros C. apply in_map_iff in C as [e [E He]].
  apply filter_In in He as [_ He]. apply negb_true_iff, str_eqb_neq in He.
  contradiction.
Qed.

(** X10.  Deleting the entry just added, by its id, undoes the add on the
    collection, provided the id was new. *)
Theorem removeExpense_addExpense uuid st :
  ~ In uuid (map Expense.id (expenses st)) ->
  expenses (removeExpense uuid (addExpense uuid st)) = expenses st.
Proof.
  intros F.
  assert (K : filter (fun e => negb (str_eqb (Expense.id e) uuid))
                     (expenses st)
              = expenses st).
  { apply filter_id. intros e He. apply negb_true_iff, str_eqb_neq.
    intros E. apply F. apply in_map_iff. now exists e. }
  rewrite addExpense_cases. unfold removeExpense.
  destruct (add_rejected st); cbn [expenses filter]; [exact K|].
  change (Expense.id (new_item uuid st)) with uuid.
  rewrite str_eqb_refl. cbn [negb]. exact K.
Qed.

(** X11.  An add and a delete of another id give the same state in either
    order. *)
Theorem removeExpense_addExpense_comm uuid id st :
  uuid <> id ->
  removeExpense id (addExpense uuid st)
  = addExpense uuid (removeExpense id st).
Proof.
  intros N. rewrite !addExpense_cases.
  change (add_rejected (removeExpense id st)) with (add_rejected st).
  destruct (add_rejected st); [reflexivity|].
  unfold removeExpense.
  cbn [expenses date amount category note filterMonth filter].
  change (Expense.id (new_item uuid st)) with uuid.
  apply str_eqb_neq in N. rewrite N. reflexivity.
Qed.

(* ================================================================= *)
(** * Month keys of valid dates *)

















(* ================================================================= *)
(** * The month list and the month views *)

Lemma monthsAvailable_perm Date_local today st :
  expenses st <> [] ->
  Permutation (monthsAvailable Date_local today st)
              (Set_from (month_keys Date_local st)).
Proof.
  intros N. unfold monthsAvailable. fold (month_keys Date_local st).
  assert (P : Permutation
                (rev (Array_sort default_compare
                        (Set_from (month_keys Date_local st))))
                (Set_from (month_keys Date_local st))).
  { rewrite <- Permutation_rev. apply Array_sort_perm. }
  destruct (rev (Array_sort default_compare
                   (Set_from (month_keys Date_local st))))
    as [|k ks] eqn:E; [|exact P].
  exfalso. apply Permutation_nil in P.
  destruct (expenses st) as [|e l] eqn:X; [congruence|].
  assert (I : In (monthKey Date_local (Expense.date e))
                 (Set_from (month_keys Date_local st))).
  { apply Set_from_In. unfold month_keys. rewrite X. now left. }
  rewrite P in I. destruct I.
Qed.

Lemma monthsAvailable_empty Date_local today st :
  expenses st = [] ->
  monthsAvailable Date_local today st = [monthKey Date_local today].
Proof. intros E. unfold monthsAvailable. rewrite E. reflexivity. Qed.

Lemma filtered_nonempty Date_local st :
  filtered Date_local st <> []
  <-> exists e, In e (expenses st)
                /\ monthKey Date_local (Expense.date e) = filterMonth st.
Proof.
  unfold filtered. split.
  - intros N.
    destruct (filter _ (expenses st)) as [|e l] eqn:E; [congruence|].
    assert (I : In e (e :: l)) by now left.
    rewrite <- E in I. apply filter_In in I as [I1 I2].
    apply str_eqb_eq in I2. now exists e.
  - intros [e [I1 I2]] E.
    assert (I : In e (filter (fun e => str_eqb
                                (monthKey Date_local (Expense.date e))
                                (filterMonth st)) (expenses st))).
    { apply filter_In. split; [exact I1|]. now apply str_eqb_eq. }
    rewrite E in I. destruct I.
Qed.

(** X14.  A month is in the month list exactly when selecting it shows at
    least one entry, or the collection is empty and it is the current
    month. *)
Theorem monthsAvailable_offered Date_local today st k :
  In k (monthsAvailable Date_local today st)
  <-> filtered Date_local (setFilterMonth k st) <> []
      \/ (expenses st = [] /\ k = monthKey Date_local today).
Proof.
  rewrite filtered_nonempty. cbn [setFilterMonth expenses filterMonth].
  destruct (expenses st) as [|e0 l0] eqn:X.
  - rewrite (monthsAvailable_empty Date_local today st X). cbn [In]. split.
    + intros [<-|[]]. now right.
    + intros [[e [[] _]]|[_ ->]]. now left.
  - assert (N : expenses st <> []) by congruence.
    pose proof (monthsAvailable_perm Date_local today st N) as P.
    split.
    + intros I. left. apply (Permutation_in _ P) in I.
      apply (proj1 (Set_from_In _ _)) in I. unfold month_keys in I.
      apply in_map_iff in I as [e [E I]]. rewrite X in I. now exists e.
    + intros [[e [I E]]|[C _]]; [|discriminate C].
      apply (Permutation_in _ (Permutation_sym P)).
      apply Set_from_In. unfold month_keys. apply in_map_iff.
      exists e. rewrite X. now split.
Qed.

Lemma list_sum_cons a l : list_sum (a :: l) = (a + list_sum l)%nat.
Proof. reflexivity. Qed.

(** Counting over a duplicate-free list of keys that covers the keys in
    use. *)
Lemma count_partition {A} (f : A -> jsstring) (ks : list jsstring) :
  NoDup ks -> forall l,
  (forall x, In x l -> In (f x) ks) ->
  list_sum (map (fun k => List.length (filter (fun x => str_eqb (f x) k) l))
                ks)
  = List.length l.
Proof.
  intros N. induction l as [|x l IH]; intros C.
  - clear C. induction N as [|k ks Hk N IHk]; [reflexivity|].
    simpl in *. exact IHk.
  - assert (IHl := IH (fun y Hy => C y (or_intror Hy))). clear IH.
    assert (Hx : In (f x) ks) by (apply C; now left).
    assert (G : forall ks, NoDup ks -> forall n,
      list_sum (map (fun k => List.length
                       (filter (fun x => str_eqb (f x) k) l)) ks) = n ->
      list_sum (map (fun k => List.length
                       (filter (fun x0 => str_eqb (f x0) k) (x :: l))) ks)
      = ((if str_mem (f x) ks then 1 else 0) + n)%nat).
    { clear. induction ks as [|k ks IHk]; intros N n E.
      - cbn in *. exact E.
      - inversion N as [|? ? Nk Nks]; subst.
        specialize (IHk Nks _ eq_refl).
        cbn [map]. rewrite !list_sum_cons, IHk. cbn [filter].
        unfold str_mem. cbn [existsb]. fold (str_mem (f x) ks).
        destruct (str_eqb (f x) k) eqn:E.
        + apply str_eqb_eq in E. subst k.
          destruct (str_mem (f x) ks) eqn:M.
          * apply str_mem_In in M. contradiction.
          * cbn [orb List.length]. lia.
        + cbn [orb]. lia. }
    rewrite (G ks N _ IHl).
    apply str_mem_In in Hx. rewrite Hx. reflexivity.
Qed.

(** X15.  The month views partition the collection: the numbers of entries
    shown under the months of the month list add up to the number of
    entries, so every entry is shown under exactly one month on offer. *)
Theorem months_partition Date_local today st :
  list_sum (map (fun k => List.length
                            (filtered Date_local (setFilterMonth k st)))
                (monthsAvailable Date_local today st))
  = List.length (expenses st).
Proof.
  unfold filtered. cbn [setFilterMonth expenses filterMonth].
  destruct (expenses st) as [|e0 l0] eqn:X.
  - rewrite (monthsAvailable_empty Date_local today st X). reflexivity.
  - assert (N : expenses st <> []) by congruence.
    pose proof (monthsAvailable_perm Date_local today st N) as P.
    rewrite <- X.
    apply (count_partition (fun e => monthKey Date_local (Expense.date e))).
    + apply (Permutation_NoDup (Permutation_sym P)), Set_from_NoDup.
    + intros e I. apply (Permutation_in _ (Permutation_sym P)).
      apply Set_from_In. unfold month_keys.
      apply in_map_iff. now exists e.
Qed.

(* ================================================================= *)
(** * Sessions *)





Lemma NoDup_ids_handle ev st :
  match ev with
  | ClickAdd u => ~ In u (map Expense.id (expenses st))
  | _ => True
  end ->
  NoDup (map Expense.id (expenses st)) ->
  NoDup (map Expense.id (expenses (handle ev st))).
Proof.
  intros Fr N. destruct ev as [v|v|v|v|v|u|id]; cbn [handle]; try exact N.
  - rewrite addExpense_cases. destruct (add_rejected st); [exact N|].
    cbn [expenses map]. now constructor.
  - unfold removeExpense. cbn [expenses]. now apply NoDup_map_filter.
Qed.

(** X17.  The ids of the collection stay distinct through a session in
    which every generated id is new when it is generated. *)
Theorem session_ids_distinct evs : forall st,
  NoDup (map Expense.id (expenses st)) -> fresh_ids evs st ->
  NoDup (map Expense.id (expenses (run evs st))).
Proof.
  induction evs as [|ev evs IH]; intros st N F; [exact N|].
  destruct F as [F1 F2]. cbn [run fold_left].
  apply IH; [|exact F2]. now apply NoDup_ids_handle.
Qed.

Lemma handle_categories ev st :
  offered_category ev -> categories_offered st ->
  categories_offered (handle ev st).
Proof.
  intros O [C1 C2].
  destruct ev as [v|v|v|v|v|u|id]; cbn [handle offered_category] in *;
    try (split; assumption).
  - rewrite addExpense_cases. destruct (add_rejected st); [now split|].
    split; [exact C1|]. cbn [expenses]. constructor; [exact C1|exact C2].
  - split; [exact C1|]. unfold removeExpense. cbn [expenses].
    rewrite Forall_forall in *. intros e He.
    apply filter_In in He as [He _]. now apply C2.
Qed.

Lemma run_categories evs : forall st,
  Forall offered_category evs -> categories_offered st ->
  categories_offered (run evs st).
Proof.
  induction evs as [|ev evs IH]; intros st F W; [exact W|].
  inversion F as [|? ? F1 F2]; subst. cbn [run fold_left].
  apply IH; [exact F2|]. now apply handle_categories.
Qed.

(** X18.  As long as categories come from the category control, every key
    of [totals.byCategory] is an entry of [CATEGORIES]: the breakdown, which
    has a row per entry of [CATEGORIES], leaves out no category of the
    month. *)
Theorem session_categories Date_local evs st k v :
  categories_offered st -> Forall offered_category evs ->
  Map_get (snd (totals Date_local (run evs st))) k = Some v ->
  In k CATEGORIES.
Proof.
  intros C F G. destruct (run_categories evs st F C) as [_ C2].
  unfold totals in G. cbn [snd] in G. rewrite byCategory_get in G.
  destruct (existsb (in_category k) (filtered Date_local (run evs st))) eqn:X;
    [|discriminate G].
  apply existsb_exists in X as [e [He Hk]].
  unfold in_category in Hk. apply str_eqb_eq in Hk. subst k.
  unfold filtered in He. apply filter_In in He as [He _].
  rewrite Forall_forall in C2. now apply C2.
Qed.

(* ================================================================= *)
(** * The further properties at sample inputs *)






Lemma filtered_addExpense_witness :
  add_rejected sample_state = false
  /\ filtered Date_local_iso (addExpense (lit "u-1") sample_state)
     = new_item (lit "u-1") sample_state
       :: filtered Date_local_iso sample_state.
Proof.
  split; [reflexivity|].
  exact (filtered_addExpense Date_local_iso (lit "u-1") sample_state eq_refl).
Defined.

Lemma removeExpense_length_witness :
  NoDup (map Expense.id (expenses scenario_state))
  /\ In (lit "2") (map Expense.id (expenses scenario_state))
  /\ List.length (expenses (removeExpense (lit "2") scenario_state)) = 3%nat.
Proof.
  assert (N : NoDup (map Expense.id (expenses scenario_state))).
  { cbn. repeat constructor; cbn; intuition discriminate. }
  assert (I : In (lit "2") (map Expense.id (expenses scenario_state))).
  { cbn. auto. }
  split; [exact N|]. split; [exact I|].
  destruct (removeExpense_length (lit "2") scenario_state N I) as [H _].
  cbn [scenario_state expenses List.length] in H. lia.
Defined.

Lemma removeExpense_addExpense_witness :
  ~ In (lit "u-9") (map Expense.id (expenses scenario_state))
  /\ expenses (removeExpense (lit "u-9")
                 (addExpense (lit "u-9")
                    (setAmount (lit "4.20") scenario_state)))
     = expenses scenario_state.
Proof.
  assert (F : ~ In (lit "u-9") (map Expense.id (expenses scenario_state))).
  { cbn. intuition discriminate. }
  split; [exact F|].
  exact (removeExpense_addExpense (lit "u-9")
           (setAmount (lit "4.20") scenario_state) F).
Defined.

Lemma removeExpense_addExpense_comm_witness :
  lit "u-9" <> lit "2"
  /\ removeExpense (lit "2")
       (addExpense (lit "u-9") (setAmount (lit "4.20") scenario_state))
     = addExpense (lit "u-9")
         (removeExpense (lit "2") (setAmount (lit "4.20") scenario_state)).
Proof.
  assert (N : lit "u-9" <> lit "2") by discriminate.
  split; [exact N|].
  exact (removeExpense_addExpense_comm (lit "u-9") (lit "2")
           (setAmount (lit "4.20") scenario_state) N).
Defined.




Lemma session_ids_distinct_witness :
  NoDup (map Expense.id (expenses sample_state))
  /\ fresh_ids sample_session sample_state
  /\ NoDup (map Expense.id (expenses (run sample_session sample_state))).
Proof.
  assert (N : NoDup (map Expense.id (expenses sample_state)))
    by constructor.
  assert (F : fresh_ids sample_session sample_state).
  { vm_compute. intuition discriminate. }
  split; [exact N|]. split; [exact F|].
  exact (session_ids_distinct sample_session sample_state N F).
Defined.

Lemma session_categories_witness :
  categories_offered sample_state
  /\ Forall offered_category sample_session
  /\ Map_get (snd (totals Date_local_iso (run sample_session sample_state)))
             (lit "Dining") = Some (Fin 3 0)
  /\ In (lit "Dining") CATEGORIES.
Proof.
  assert (C : categories_offered sample_state).
  { split; [right; left; reflexivity|constructor]. }
  assert (F : Forall offered_category sample_session).
  { unfold sample_session. repeat constructor. }
  assert (G : Map_get (snd (totals Date_local_iso
                              (run sample_session sample_state)))
                      (lit "Dining") = Some (Fin 3 0)) by reflexivity.
  split; [exact C|]. split; [exact F|]. split; [exact G|].
  exact (session_categories Date_local_iso sample_session sample_state
           (lit "Dining") (Fin 3 0) C F G).
Defined.
